(** * Memory Match Pro: the match engine of [MemoryMatchGame]

    A shallow embedding of the game-state machine of the class
    [MemoryMatchGame] (card layout, flip and match transitions, scoring,
    pause, timers and the persisted best score), followed by the
    properties established about it.

    Conventions of the embedding.
    - JavaScript numbers that hold counters, scores and millisecond
      timestamps are integers in the program and are modelled as [Z];
      [Math.floor (a / b)] on them is [Z.div].
    - Pixel geometry is computed by a true division
      ([(canvas.width - 60) / cols]); it is modelled with exact rationals
      [Q], that is, floating-point rounding is idealised away.  The
      coordinates that the program computes differ from these rationals
      by rounding errors many orders of magnitude below a pixel, so a
      property that tells which card a click selects is stated for
      clicks that keep a margin from the edges of the card.
    - [undefined] is [None]: a card dealt beyond the end of [cardData] has
      [card_symbol = None].
    - The card objects referenced from [flippedCards] are elements of
      [cards]; the references are modelled as indices into [cards], which
      coincide with the cards' [id].  [cards] is only ever replaced by
      [createCards], and [initializeGame] empties [flippedCards] just
      before, so the references never dangle.
    - The browser is part of the state: [localStorage], the table of live
      [setInterval] timers and the pending [setTimeout] callbacks.
      [Date.now ()] and [Math.random ()] are inputs of the operations that
      call them.
    - DOM updates, rendering, sound and particles have no effect on the
      modelled state and are left out. *)

From Stdlib Require Import ZArith QArith Qround Lqa Lia.
From Stdlib Require Import DecimalString DecimalPos DecimalZ.
From stdpp Require Import gmap strings list.

Local Open Scope nat_scope.

(** ** Data model *)

(** [this.gameState]: one of the strings 'loading', 'menu', 'playing',
    'completed'. *)
Inductive GameState := loading | menu | playing | completed.

(** [this.difficulty]: the [data-level] of one of the four difficulty
    buttons. *)
Inductive Difficulty := easy | medium | hard | expert.

(** An entry of [this.difficulties]. *)
Record Config := mkConfig { rows : nat; cols : nat; timeBonus : Z }.

(** A card object as pushed by [createCards]. *)
Record Card := mkCard {
  card_id : nat;
  card_symbol : option string;
  card_x : Q;
  card_y : Q;
  card_width : Q;
  card_height : Q;
  isFlipped : bool;
  isMatched : bool;
  flipTime : Z
}.

(** A callback handed to [setTimeout]. *)
Inductive Callback := CheckMatch | GameComplete.

#[global] Instance GameState_eq_dec : EqDecision GameState.
Proof. solve_decision. Defined.
#[global] Instance Difficulty_eq_dec : EqDecision Difficulty.
Proof. solve_decision. Defined.
#[global] Instance Callback_eq_dec : EqDecision Callback.
Proof. solve_decision. Defined.

(** The fields of the [MemoryMatchGame] object, then the browser state it
    acts on.  [startTime] is [null] before the first game; [null] behaves
    as [0] in [Date.now () - this.startTime], so it is modelled as [0].
    [timerInterval] is [undefined] ([None]) until [startTimer] runs. *)
Record World := mkWorld {
  gameState : GameState;
  cards : list Card;
  flippedCards : list nat;
  matchedPairs : Z;
  score : Z;
  moves : Z;
  level : Z;
  startTime : Z;
  gameTime : Z;
  difficulty : Difficulty;
  isPaused : bool;
  difficulties : Difficulty -> Config;
  cardSymbols : list string;
  canvas_width : Z;
  canvas_height : Z;
  timerInterval : option nat;
  (* browser *)
  localStorage : gmap string string;
  intervals : list nat;
  nextIntervalId : nat;
  timeouts : list Callback
}.

(** Field updates ([this.f = v]). *)
Definition set_gameState (v : GameState) (w : World) : World :=
  mkWorld v (cards w) (flippedCards w) (matchedPairs w) (score w) (moves w)
    (level w) (startTime w) (gameTime w) (difficulty w) (isPaused w)
    (difficulties w) (cardSymbols w) (canvas_width w) (canvas_height w)
    (timerInterval w) (localStorage w) (intervals w) (nextIntervalId w)
    (timeouts w).
Definition set_cards (v : list Card) (w : World) : World :=
  mkWorld (gameState w) v (flippedCards w) (matchedPairs w) (score w) (moves
    w) (level w) (startTime w) (gameTime w) (difficulty w) (isPaused w)
    (difficulties w) (cardSymbols w) (canvas_width w) (canvas_height w)
    (timerInterval w) (localStorage w) (intervals w) (nextIntervalId w)
    (timeouts w).
Definition set_flippedCards (v : list nat) (w : World) : World :=
  mkWorld (gameState w) (cards w) v (matchedPairs w) (score w) (moves w)
    (level w) (startTime w) (gameTime w) (difficulty w) (isPaused w)
    (difficulties w) (cardSymbols w) (canvas_width w) (canvas_height w)
    (timerInterval w) (localStorage w) (intervals w) (nextIntervalId w)
    (timeouts w).
Definition set_matchedPairs (v : Z) (w : World) : World :=
  mkWorld (gameState w) (cards w) (flippedCards w) v (score w) (moves w)
    (level w) (startTime w) (gameTime w) (difficulty w) (isPaused w)
    (difficulties w) (cardSymbols w) (canvas_width w) (canvas_height w)
    (timerInterval w) (localStorage w) (intervals w) (nextIntervalId w)
    (timeouts w).
Definition set_score (v : Z) (w : World) : World :=
  mkWorld (gameState w) (cards w) (flippedCards w) (matchedPairs w) v (moves
    w) (level w) (startTime w) (gameTime w) (difficulty w) (isPaused w)
    (difficulties w) (cardSymbols w) (canvas_width w) (canvas_height w)
    (timerInterval w) (localStorage w) (intervals w) (nextIntervalId w)
    (timeouts w).
Definition set_moves (v : Z) (w : World) : World :=
  mkWorld (gameState w) (cards w) (flippedCards w) (matchedPairs w) (score
    w) v (level w) (startTime w) (gameTime w) (difficulty w) (isPaused w)
    (difficulties w) (cardSymbols w) (canvas_width w) (canvas_height w)
    (timerInterval w) (localStorage w) (intervals w) (nextIntervalId w)
    (timeouts w).
Definition set_level (v : Z) (w : World) : World :=
  mkWorld (gameState w) (cards w) (flippedCards w) (matchedPairs w) (score
    w) (moves w) v (startTime w) (gameTime w) (difficulty w) (isPaused w)
    (difficulties w) (cardSymbols w) (canvas_width w) (canvas_height w)
    (timerInterval w) (localStorage w) (intervals w) (nextIntervalId w)
    (timeouts w).
Definition set_startTime (v : Z) (w : World) : World :=
  mkWorld (gameState w) (cards w) (flippedCards w) (matchedPairs w) (score
    w) (moves w) (level w) v (gameTime w) (difficulty w) (isPaused w)
    (difficulties w) (cardSymbols w) (canvas_width w) (canvas_height w)
    (timerInterval w) (localStorage w) (intervals w) (nextIntervalId w)
    (timeouts w).
Definition set_gameTime (v : Z) (w : World) : World :=
  mkWorld (gameState w) (cards w) (flippedCards w) (matchedPairs w) (score
    w) (moves w) (level w) (startTime w) v (difficulty w) (isPaused w)
    (difficulties w) (cardSymbols w) (canvas_width w) (canvas_height w)
    (timerInterval w) (localStorage w) (intervals w) (nextIntervalId w)
    (timeouts w).
Definition set_difficulty (v : Difficulty) (w : World) : World :=
  mkWorld (gameState w) (cards w) (flippedCards w) (matchedPairs w) (score
    w) (moves w) (level w) (startTime w) (gameTime w) v (isPaused w)
    (difficulties w) (cardSymbols w) (canvas_width w) (canvas_height w)
    (timerInterval w) (localStorage w) (intervals w) (nextIntervalId w)
    (timeouts w).
Definition set_isPaused (v : bool) (w : World) : World :=
  mkWorld (gameState w) (cards w) (flippedCards w) (matchedPairs w) (score
    w) (moves w) (level w) (startTime w) (gameTime w) (difficulty w) v
    (difficulties w) (cardSymbols w) (canvas_width w) (canvas_height w)
    (timerInterval w) (localStorage w) (intervals w) (nextIntervalId w)
    (timeouts w).
Definition set_canvas_width (v : Z) (w : World) : World :=
  mkWorld (gameState w) (cards w) (flippedCards w) (matchedPairs w) (score
    w) (moves w) (level w) (startTime w) (gameTime w) (difficulty w)
    (isPaused w) (difficulties w) (cardSymbols w) v (canvas_height w)
    (timerInterval w) (localStorage w) (intervals w) (nextIntervalId w)
    (timeouts w).
Definition set_canvas_height (v : Z) (w : World) : World :=
  mkWorld (gameState w) (cards w) (flippedCards w) (matchedPairs w) (score
    w) (moves w) (level w) (startTime w) (gameTime w) (difficulty w)
    (isPaused w) (difficulties w) (cardSymbols w) (canvas_width w) v
    (timerInterval w) (localStorage w) (intervals w) (nextIntervalId w)
    (timeouts w).
Definition set_timerInterval (v : option nat) (w : World) : World :=
  mkWorld (gameState w) (cards w) (flippedCards w) (matchedPairs w) (score
    w) (moves w) (level w) (startTime w) (gameTime w) (difficulty w)
    (isPaused w) (difficulties w) (cardSymbols w) (canvas_width w)
    (canvas_height w) v (localStorage w) (intervals w) (nextIntervalId w)
    (timeouts w).
Definition set_localStorage (v : gmap string string) (w : World) : World :=
  mkWorld (gameState w) (cards w) (flippedCards w) (matchedPairs w) (score
    w) (moves w) (level w) (startTime w) (gameTime w) (difficulty w)
    (isPaused w) (difficulties w) (cardSymbols w) (canvas_width w)
    (canvas_height w) (timerInterval w) v (intervals w) (nextIntervalId w)
    (timeouts w).
Definition set_intervals (v : list nat) (w : World) : World :=
  mkWorld (gameState w) (cards w) (flippedCards w) (matchedPairs w) (score
    w) (moves w) (level w) (startTime w) (gameTime w) (difficulty w)
    (isPaused w) (difficulties w) (cardSymbols w) (canvas_width w)
    (canvas_height w) (timerInterval w) (localStorage w) v (nextIntervalId
    w) (timeouts w).
Definition set_nextIntervalId (v : nat) (w : World) : World :=
  mkWorld (gameState w) (cards w) (flippedCards w) (matchedPairs w) (score
    w) (moves w) (level w) (startTime w) (gameTime w) (difficulty w)
    (isPaused w) (difficulties w) (cardSymbols w) (canvas_width w)
    (canvas_height w) (timerInterval w) (localStorage w) (intervals w) v
    (timeouts w).
Definition set_timeouts (v : list Callback) (w : World) : World :=
  mkWorld (gameState w) (cards w) (flippedCards w) (matchedPairs w) (score
    w) (moves w) (level w) (startTime w) (gameTime w) (difficulty w)
    (isPaused w) (difficulties w) (cardSymbols w) (canvas_width w)
    (canvas_height w) (timerInterval w) (localStorage w) (intervals w)
    (nextIntervalId w) v.

(** ** Configuration set up by the constructor *)

Definition default_difficulties (d : Difficulty) : Config :=
  match d with
  | easy => mkConfig 2 3 50
  | medium => mkConfig 3 4 100
  | hard => mkConfig 4 4 150
  | expert => mkConfig 4 6 200
  end.

Definition default_cardSymbols : list string :=
  [ "🎯"; "🎮"; "🎲"; "🎪"; "🎨"; "🎭"; "🎵"; "🎸";
    "🚀"; "🌟"; "⭐"; "💎"; "🔥"; "⚡"; "🌈"; "🦄";
    "🐱"; "🐶"; "🐭"; "🐹"; "🐰"; "🦊"; "🐻"; "🐼";
    "🍎"; "🍊"; "🍋"; "🍌"; "🍇"; "🍓"; "🥝"; "🍑" ]%string.

(** The string held by [this.difficulty]. *)
Definition difficulty_name (d : Difficulty) : string :=
  match d with
  | easy => "easy"
  | medium => "medium"
  | hard => "hard"
  | expert => "expert"
  end.

(** The object as the constructor leaves it, with the canvas sized to
    [cw] x [ch] by [setupCanvas], in a browser with storage [ls] and no
    timers. Interval ids handed out by [setInterval] are positive. *)
Definition constructed (cw ch : Z) (ls : gmap string string) : World :=
  mkWorld loading [] [] 0 0 0 1 0 0 medium false
    default_difficulties default_cardSymbols cw ch None ls [] 1 [].

Definition Qnat (n : nat) : Q := inject_Z (Z.of_nat n).

(** ** Board generation *)

(** [[array[i], array[j]] = [array[j], array[i]]] for indices in range.
    [shuffleArray] only uses it with [i < array.length] and, for draws of
    [Math.random] in [0, 1), with [0 <= j <= i]; what JavaScript does out
    of range (it stores [undefined] and may extend the array) is not
    modelled. *)
Definition swap {A} (i j : nat) (array : list A) : list A :=
  match array !! i, array !! j with
  | Some a, Some b => <[j:=a]> (<[i:=b]> array)
  | _, _ => array
  end.

(** [Math.floor (Math.random () * (i + 1))] for a draw [r]. *)
Definition random_index (r : Q) (i : nat) : nat :=
  Z.to_nat (Qfloor (r * Qnat (i + 1))).

(** The loop of [shuffleArray], from index [i] down to 1; [rand k] is the
    value of the [k]-th call of [Math.random ()]. *)
Fixpoint shuffle_loop {A} (rand : nat -> Q) (k i : nat) (array : list A)
    : list A :=
  match i with
  | 0 => array
  | S i' =>
      shuffle_loop rand (S k) i' (swap i (random_index (rand k) i) array)
  end.

Definition shuffleArray {A} (rand : nat -> Q) (array : list A) : list A :=
  shuffle_loop rand 0 (length array - 1) array.

(** The card pushed for slot [i]. *)
Definition new_card (config : Config) (cardWidth cardHeight : Q)
    (cardData : list string) (i : nat) : Card :=
  let row := i / cols config in
  let col := i mod cols config in
  mkCard i (cardData !! i)
    (30 + Qnat col * cardWidth) (30 + Qnat row * cardHeight)
    (cardWidth - 10) (cardHeight - 10)
    false false 0.

(** [createCards]. [pairsNeeded] is [totalCards / 2] as a real number; its
    only use is as the end of [slice], which truncates it. *)
Definition createCards (rand : nat -> Q) (w : World) : World :=
  let config := difficulties w (difficulty w) in
  let totalCards := rows config * cols config in
  let pairsNeeded := totalCards / 2 in
  let selectedSymbols := take pairsNeeded (cardSymbols w) in
  let cardData := shuffleArray rand (selectedSymbols ++ selectedSymbols) in
  let cardWidth := (inject_Z (canvas_width w - 60) / Qnat (cols config))%Q in
  let cardHeight := (inject_Z (canvas_height w - 60) / Qnat (rows config))%Q in
  set_cards (map (new_card config cardWidth cardHeight cardData)
                 (seq 0 totalCards)) w.

(** ** Game flow *)

Definition showStartScreen (w : World) : World := set_gameState menu w.

Definition selectDifficulty (lvl : Difficulty) (w : World) : World :=
  set_difficulty lvl w.

Definition initializeGame (now : Z) (rand : nat -> Q) (w : World) : World :=
  createCards rand
    (set_startTime now
      (set_flippedCards []
        (set_matchedPairs 0 (set_moves 0 (set_score 0 w))))).

(** [startTimer]: clear the interval held in [timerInterval], if any, then
    register a new one. *)
Definition clearInterval (i : nat) (w : World) : World :=
  set_intervals (filter (λ j, j ≠ i) (intervals w)) w.

Definition setInterval (w : World) : World :=
  let i := nextIntervalId w in
  set_timerInterval (Some i)
    (set_nextIntervalId (S i) (set_intervals (intervals w ++ [i]) w)).

Definition startTimer (w : World) : World :=
  setInterval
    (match timerInterval w with
     | Some i => clearInterval i w
     | None => w
     end).

(** The body of the interval callback, run at time [now]. *)
Definition tick (now : Z) (w : World) : World :=
  if negb (isPaused w) && bool_decide (gameState w = playing)
  then set_gameTime (now - startTime w)%Z w
  else w.

Definition startGame (now : Z) (rand : nat -> Q) (w : World) : World :=
  startTimer (initializeGame now rand (set_gameState playing w)).

(** ** Selecting cards *)

(** The geometric part of the test in [handleCardClick]. *)
Definition inside (x y : Q) (c : Card) : bool :=
  Qle_bool (card_x c) x && Qle_bool x (card_x c + card_width c)
  && Qle_bool (card_y c) y && Qle_bool y (card_y c + card_height c).

Definition clickable (x y : Q) (c : Card) : bool :=
  inside x y c && negb (isFlipped c) && negb (isMatched c).

(** [Array.prototype.find], returning the position of the element found. *)
Fixpoint find_index {A} (p : A -> bool) (l : list A) : option nat :=
  match l with
  | [] => None
  | a :: l' => if p a then Some 0 else S <$> find_index p l'
  end.

Definition flip (now : Z) (c : Card) : Card :=
  mkCard (card_id c) (card_symbol c) (card_x c) (card_y c) (card_width c)
    (card_height c) true (isMatched c) now.

Definition unflip (c : Card) : Card :=
  mkCard (card_id c) (card_symbol c) (card_x c) (card_y c) (card_width c)
    (card_height c) false (isMatched c) (flipTime c).

Definition mark_matched (c : Card) : Card :=
  mkCard (card_id c) (card_symbol c) (card_x c) (card_y c) (card_width c)
    (card_height c) (isFlipped c) true (flipTime c).

(** [flipCard] on the card at position [i]; the second card of a pair
    counts the move and schedules [checkMatch]. *)
Definition flipCard (i : nat) (now : Z) (w : World) : World :=
  let w1 := set_flippedCards (flippedCards w ++ [i])
              (set_cards (alter (flip now) i (cards w)) w) in
  if bool_decide (length (flippedCards w1) = 2)
  then set_timeouts (timeouts w1 ++ [CheckMatch])
         (set_moves (moves w1 + 1)%Z w1)
  else w1.

Definition handleCardClick (x y : Q) (now : Z) (w : World) : World :=
  if bool_decide (2 <= length (flippedCards w)) then w
  else match find_index (clickable x y) (cards w) with
       | Some i => flipCard i now w
       | None => w
       end.

(** A click event together with the result of
    [canvas.getBoundingClientRect ()] at that moment. *)
Record Click := mkClick {
  clientX : Q;
  clientY : Q;
  rect_left : Q;
  rect_top : Q;
  rect_width : Q;
  rect_height : Q
}.

(** [handleCanvasClick]. With a bounding rectangle of width or height 0
    the scale factors are infinite or NaN, so are the click coordinates,
    and no card passes the test of [handleCardClick]. *)
Definition handleCanvasClick (e : Click) (now : Z) (w : World) : World :=
  if negb (bool_decide (gameState w = playing)) || isPaused w then w
  else if Qeq_bool (rect_width e) 0 || Qeq_bool (rect_height e) 0 then w
  else
    let x := (clientX e - rect_left e)%Q in
    let y := (clientY e - rect_top e)%Q in
    let scaleX := (inject_Z (canvas_width w) / rect_width e)%Q in
    let scaleY := (inject_Z (canvas_height w) / rect_height e)%Q in
    handleCardClick (x * scaleX) (y * scaleY) now w.

(** ** Resolution and scoring *)

Definition calculateScore (w : World) : Z :=
  let config := difficulties w (difficulty w) in
  let baseScore := 100%Z in
  let timeBonus := Z.max 0 (timeBonus config - gameTime w / 1000) in
  let movesPenalty := Z.max 0 (moves w * 5) in
  Z.max 10 (baseScore + timeBonus - movesPenalty).

(** [checkMatch]. [None] is the [TypeError] raised by reading [symbol] of
    [undefined] when fewer than two cards are buffered; it is raised
    before any field is written.  The test for completion compares
    [matchedPairs] with the real number [cards.length / 2]. *)
Definition checkMatch (w : World) : option World :=
  match flippedCards w with
  | i1 :: i2 :: _ =>
      match cards w !! i1, cards w !! i2 with
      | Some card1, Some card2 =>
          if decide (card_symbol card1 = card_symbol card2) then
            let w1 := set_cards
                        (alter mark_matched i2
                           (alter mark_matched i1 (cards w))) w in
            let w2 := set_matchedPairs (matchedPairs w1 + 1)%Z w1 in
            let w3 := set_score (score w2 + calculateScore w2)%Z w2 in
            let w4 :=
              if bool_decide ((2 * matchedPairs w3)%Z
                              = Z.of_nat (length (cards w3)))
              then set_timeouts (timeouts w3 ++ [GameComplete]) w3
              else w3 in
            Some (set_flippedCards [] w4)
          else
            Some (set_flippedCards []
                    (set_cards
                       (alter unflip i2 (alter unflip i1 (cards w))) w))
      | _, _ => None
      end
  | _ => None
  end.

(** ** Persisted best score *)

(** [Number.prototype.toString] on an integer. *)
Definition toString (n : Z) : string := NilZero.string_of_int (Z.to_int n).

(** The conversion of a string to a number that [>] performs, on the
    strings [toString] writes (an optional minus sign and decimal
    digits); [None] is NaN.  Other numeric spellings (exponents,
    fractions, hexadecimal, surrounding blanks) are never written by the
    program and are read as NaN here. *)
Definition toNumber (s : string) : option Z :=
  Z.of_int <$> NilZero.int_of_string s.

Definition bestScore_key (d : Difficulty) : string :=
  ("bestScore_" +:+ difficulty_name d)%string.

(** The value of [localStorage.getItem (key) || 0] as the number the
    comparison sees: [null] and the empty string give [0]. *)
Definition currentBest (d : Difficulty) (ls : gmap string string)
    : option Z :=
  match ls !! bestScore_key d with
  | None => Some 0%Z
  | Some EmptyString => Some 0%Z
  | Some s => toNumber s
  end.

(** [saveBestScore]; a comparison with NaN is false. *)
Definition saveBestScore (w : World) : World :=
  match currentBest (difficulty w) (localStorage w) with
  | Some best =>
      if (best <? score w)%Z
      then set_localStorage
             (<[bestScore_key (difficulty w) := toString (score w)]>
                (localStorage w)) w
      else w
  | None => w
  end.

(** ** Completion, pause and the remaining commands *)

Definition gameComplete (w : World) : World :=
  let w1 := set_gameState completed w in
  let timeBonus := Z.max 0 (1000 - gameTime w1 / 1000 * 10) in
  saveBestScore (set_score (score w1 + timeBonus)%Z w1).

Definition togglePause (w : World) : World :=
  if negb (bool_decide (gameState w = playing)) then w
  else set_isPaused (negb (isPaused w)) w.

Definition restartGame (now : Z) (rand : nat -> Q) (w : World) : World :=
  startGame now rand w.

Definition playAgain (now : Z) (rand : nat -> Q) (w : World) : World :=
  startGame now rand (set_level (level w + 1)%Z w).

Definition newGame (w : World) : World :=
  showStartScreen (set_level 1%Z w).

(** [resizeCanvas] with the size computed from the container. *)
Definition resizeCanvas (cw ch : Z) (w : World) : World :=
  set_canvas_height ch (set_canvas_width cw w).

Inductive Key := Space | Escape.

(** [handleKeyPress] of the game object; the Escape handler installed by
    the game manager does the same as the one here. *)
Definition handleKeyPress (k : Key) (w : World) : World :=
  match k with
  | Space => if bool_decide (gameState w = playing) then togglePause w else w
  | Escape =>
      if bool_decide (gameState w = playing) then showStartScreen w else w
  end.

(** The [visibilitychange] handler when the tab becomes hidden. *)
Definition tabHidden (w : World) : World :=
  if bool_decide (gameState w = playing) && negb (isPaused w)
  then togglePause w else w.

Definition destroy (w : World) : World :=
  match timerInterval w with
  | Some i => clearInterval i w
  | None => w
  end.

(** ** The event loop

    Everything that runs after construction is an event handler, an
    interval callback or a timeout callback.  Timeouts may fire in any
    order (an 800 ms [checkMatch] can be overtaken by a 500 ms
    [gameComplete] scheduled later), so [Timeout n] fires the [n]-th
    pending one, whichever it is.  An exception in a callback leaves the
    state as it was. *)
Inductive Event :=
  | ShowStartScreen
  | SelectDifficulty (lvl : Difficulty)
  | StartGame (now : Z) (rand : nat -> Q)
  | RestartGame (now : Z) (rand : nat -> Q)
  | PlayAgain (now : Z) (rand : nat -> Q)
  | NewGame
  | TogglePause
  | CanvasClick (e : Click) (now : Z)
  | KeyPress (k : Key)
  | TabHidden
  | Resize (cw ch : Z)
  | Interval (i : nat) (now : Z)
  | Timeout (n : nat)
  | Destroy.

Definition run_callback (cb : Callback) (w : World) : World :=
  match cb with
  | CheckMatch => default w (checkMatch w)
  | GameComplete => gameComplete w
  end.

Definition step (ev : Event) (w : World) : World :=
  match ev with
  | ShowStartScreen => showStartScreen w
  | SelectDifficulty lvl => selectDifficulty lvl w
  | StartGame now rand => startGame now rand w
  | RestartGame now rand => restartGame now rand w
  | PlayAgain now rand => playAgain now rand w
  | NewGame => newGame w
  | TogglePause => togglePause w
  | CanvasClick e now => handleCanvasClick e now w
  | KeyPress k => handleKeyPress k w
  | TabHidden => tabHidden w
  | Resize cw ch => resizeCanvas cw ch w
  | Interval i now => if bool_decide (i ∈ intervals w) then tick now w else w
  | Timeout n =>
      match timeouts w !! n with
      | Some cb => run_callback cb (set_timeouts (delete n (timeouts w)) w)
      | None => w
      end
  | Destroy => destroy w
  end.

(** Running a list of events, first event first. *)
Definition run (evs : list Event) (w : World) : World :=
  foldl (λ w ev, step ev w) w evs.

(** The states the program can be in: the constructed object followed by
    any events. *)
Inductive reachable : World -> Prop :=
  | reachable_constructed cw ch ls : reachable (constructed cw ch ls)
  | reachable_step ev w : reachable w -> reachable (step ev w).

(** ** Predicates used in the properties *)

(** The card at position [i], for naming the cards of a concrete board. *)
Definition card_at (i : nat) (w : World) : Card :=
  default (mkCard 0 None 0 0 0 0 false false 0) (cards w !! i).

(** The time bonus that [gameComplete] adds. *)
Definition completionBonus (w : World) : Z :=
  Z.max 0 (1000 - gameTime w / 1000 * 10).

(** No point passes the geometric test of [handleCardClick] for two
    different cards. *)
Definition disjoint_cards (l : list Card) : Prop :=
  forall i j ci cj x y,
    l !! i = Some ci -> l !! j = Some cj ->
    inside x y ci = true -> inside x y cj = true -> i = j.

(** Whether [p] lies between [a] and [a + len], in either order. *)
Definition spans (a len p : Q) : bool :=
  (Qle_bool a p && Qle_bool p (a + len))
  || (Qle_bool (a + len) p && Qle_bool p a).

(** The pixel rectangle of a card: the rectangle that the card stores and
    that [drawCard] hands to [fillRect] and [strokeRect], with the corners
    [(x, y)] and [(x + width, y + height)].  A negative width or height
    makes it extend to the left of or above [(x, y)]. *)
Definition in_rect (px py : Q) (c : Card) : bool :=
  spans (card_x c) (card_width c) px && spans (card_y c) (card_height c) py.

(** Two cards overlap when some point lies in the rectangles of both. *)
Definition rects_overlap (c1 c2 : Card) : Prop :=
  exists px py, in_rect px py c1 = true /\ in_rect px py c2 = true.

(** No two different cards of the board overlap. *)
Definition no_overlap (l : list Card) : Prop :=
  forall i j ci cj,
    l !! i = Some ci -> l !! j = Some cj -> i <> j -> ~ rects_overlap ci cj.

(** A thousandth of a pixel.  The coordinates of a card are rounded by
    floating-point arithmetic, by far less than this on a canvas of at
    most 800 x 600, the largest that [resizeCanvas] sets. *)
Definition edge_margin : Q := 1 # 1000.

(** The point lies in the rectangle of the card, at least [edge_margin]
    away from each of its edges. *)
Definition well_inside (x y : Q) (c : Card) : Prop :=
  (card_x c + edge_margin <= x)%Q /\
  (x <= card_x c + card_width c - edge_margin)%Q /\
  (card_y c + edge_margin <= y)%Q /\
  (y <= card_y c + card_height c - edge_margin)%Q.

(** The number of cards that carry the symbol [sym]. *)
Definition count_symbol (sym : string) (l : list Card) : nat :=
  length (filter (λ c, card_symbol c = Some sym) l).

(** The live interval, if there is one, is the one remembered in
    [timerInterval], and ids not yet handed out are fresh. *)
Definition timer_inv (w : World) : Prop :=
  (intervals w = [] \/
   exists i, timerInterval w = Some i /\ intervals w = [i]) /\
  (forall i, timerInterval w = Some i -> i < nextIntervalId w).

(** What holds in every reachable state. *)
Definition Inv (w : World) : Prop :=
  length (flippedCards w) <= 2 /\ disjoint_cards (cards w) /\ timer_inv w.

(** The rectangle of a card. *)
Definition geometry (c : Card) : Q * Q * Q * Q :=
  (card_x c, card_y c, card_width c, card_height c).

(** ** Sample games *)

(** A source of random numbers that always draws one half. *)
Definition sample_rand : nat -> Q := fun _ => (1 # 2)%Q.

(** An easy game on an 800 x 600 canvas, started at time 0. *)
Definition sample_game : World :=
  run [ShowStartScreen; SelectDifficulty easy; StartGame 0 sample_rand]
      (constructed 800 600 ∅).

(** A click at canvas coordinates [(x, y)] on an unscaled canvas. *)
Definition click_at (x y : Z) (now : Z) : Event :=
  CanvasClick (mkClick (inject_Z x) (inject_Z y) 0 0 800 600) now.

(** The sample game after selecting cards 0 and 5, which carry the same
    symbol. *)
Definition sample_pair : World :=
  run [click_at 40 40 100; click_at 700 400 200] sample_game.

(** The sample game after selecting cards 0 and 1, whose symbols differ. *)
Definition sample_mismatch : World :=
  handleCardClick 300 40 200 (handleCardClick 40 40 100 sample_game).

(** The sample game with the pairs (0, 5) and (1, 4) matched and the last
    pair (2, 3) selected, at the moment its [checkMatch] callback is taken
    off the pending timeouts to run; the clock has not ticked. *)
Definition sample_last_pair : World :=
  set_timeouts []
    (run [click_at 40 40 100; click_at 700 400 200; Timeout 0;
          click_at 300 40 300; click_at 300 400 400; Timeout 0;
          click_at 600 40 500; click_at 40 400 600] sample_game).

(** The menu of a game whose container leaves a canvas of 65 x 65 pixels,
    with the easy profile selected. *)
Definition small_canvas_menu : World :=
  run [ShowStartScreen; SelectDifficulty easy] (constructed 65 65 ∅).

(** The sample game, paused. *)
Definition sample_paused : World := togglePause sample_game.

(** The game started, then aborted to the menu with Escape. *)
Definition sample_aborted : World :=
  run [StartGame 0 sample_rand; KeyPress Escape] (constructed 800 600 ∅).

(** The menu of an easy game whose pool holds two symbols, where three
    pairs are needed. *)
Definition short_pool_menu : World :=
  mkWorld menu [] [] 0 0 0 1 0 0 easy false default_difficulties
    ["🎯"; "🎮"]%string 800 600 None ∅ [] 1 [].

(** The sample game, ticked after 1 s and then paused. *)
Definition sample_paused_at_1s : World :=
  run [Interval 1 1000; TogglePause] sample_game.

(** The same, left paused for a minute (the interval still fires),
    resumed at 61 s and ticked at 61.1 s. *)
Definition sample_resumed : World :=
  run [Interval 1 31000; Interval 1 61000; TogglePause; Interval 1 61100]
      sample_paused_at_1s.

(** ** Predicates of the engine invariants *)

(** The flip buffer lists, without repetition, exactly the cards that are
    face up and not matched. *)
Definition buffer_inv (w : World) : Prop :=
  NoDup (flippedCards w) /\
  (forall i, i ∈ flippedCards w <->
             exists c, cards w !! i = Some c /\
                       isFlipped c = true /\ isMatched c = false).

(** The number of cards marked matched. *)
Definition matched_count (l : list Card) : nat :=
  length (filter (λ c, isMatched c = true) l).

(** 1 while two cards await resolution, 0 otherwise. *)
Definition pair_pending (w : World) : Z :=
  if bool_decide (length (flippedCards w) = 2) then 1%Z else 0%Z.

Definition counts_inv (w : World) : Prop :=
  (2 * matchedPairs w)%Z = Z.of_nat (matched_count (cards w)) /\
  (10 * matchedPairs w <= score w)%Z /\
  (matchedPairs w + pair_pending w <= moves w)%Z /\
  (1 <= level w)%Z.

(** A full buffer has its [checkMatch] among the pending timeouts. *)
Definition pending_inv (w : World) : Prop :=
  length (flippedCards w) = 2 -> CheckMatch ∈ timeouts w.

Definition engine_inv (w : World) : Prop :=
  buffer_inv w /\ counts_inv w /\ pending_inv w.
(** ** Display of the elapsed time *)

(** [String.prototype.padStart (2, '0')]. *)
Definition padStart2 (s : string) : string :=
  match String.length s with
  | 0 => "00" +:+ s
  | 1 => "0" +:+ s
  | _ => s
  end.

(** [formatTime]; [%] takes the sign of the dividend, as [Z.rem] does. *)
Definition formatTime (milliseconds : Z) : string :=
  let seconds := (milliseconds / 1000)%Z in
  let minutes := (seconds / 60)%Z in
  let remainingSeconds := Z.rem seconds 60 in
  padStart2 (toString minutes) +:+ ":" +:+ padStart2 (toString remainingSeconds).

(** The character of a decimal digit. *)
Definition digit_char (d : Z) : Ascii.ascii :=
  Ascii.ascii_of_nat (48 + Z.to_nat d).

(** The state in which the last match of the sample game has just been
    resolved: its [gameComplete] is pending. *)
Definition sample_completing : World :=
  run [click_at 40 40 100; click_at 700 400 200; Timeout 0;
       click_at 300 40 300; click_at 300 400 400; Timeout 0;
       click_at 600 40 500; click_at 40 400 600; Timeout 0] sample_game.

(** ** Utilities: [MathUtils] and [ValidationUtils]

    Numbers are exact rationals, as for the geometry of the board; the
    functions below only compare and add their arguments, except
    [randomInt], which floors a product. *)

Module MathUtils.

(** [x > y] on numbers. *)
Definition Qgt_bool (x y : Q) : bool := negb (Qle_bool x y).

(** [Math.max] and [Math.min] of two numbers. *)
Definition max (a b : Q) : Q := if Qle_bool a b then b else a.
Definition min (a b : Q) : Q := if Qle_bool a b then a else b.

Definition clamp (value min_ max_ : Q) : Q := min (max value min_) max_.


Definition pointInRect (px py rx ry rw rh : Q) : bool :=
  Qle_bool rx px && Qle_bool px (rx + rw)
  && Qle_bool ry py && Qle_bool py (ry + rh).

Definition rectIntersection (r1x r1y r1w r1h r2x r2y r2w r2h : Q) : bool :=
  negb (Qgt_bool r2x (r1x + r1w) || Qgt_bool r1x (r2x + r2w)
        || Qgt_bool r2y (r1y + r1h) || Qgt_bool r1y (r2y + r2h)).

End MathUtils.

Module ValidationUtils.

Definition isInRange (value min_ max_ : Q) : bool :=
  Qle_bool min_ value && Qle_bool value max_.

End ValidationUtils.
(** ** Utilities: [Timer]

    The fields of a [Timer] object, then the part of the browser it acts
    on: the live intervals and the next interval id.  [calls] records the
    arguments with which [callback] was invoked; the callback itself is
    foreign code and is assumed not to call back into the timer.
    [startTime] is [null] before the first start and is written before
    it is ever read. *)

Module Timer.

Record T := mk {
  timerId : option nat;
  startTime : Z;
  elapsed : Z;
  paused : bool;
  live : list nat;
  nextId : nat;
  calls : list Z
}.

(** [new Timer (callback, interval)], in a browser whose next interval id
    is [n] (ids are positive). *)
Definition new (n : nat) : T := mk None 0 0 false [] (S n) [].

Definition start (now : Z) (t : T) : T :=
  match timerId t with
  | Some _ => t
  | None =>
      mk (Some (nextId t)) (now - elapsed t) (elapsed t) (paused t)
         (live t ++ [nextId t]) (S (nextId t)) (calls t)
  end.

(** The interval callback of interval [i], run at time [now]. *)
Definition fire (i : nat) (now : Z) (t : T) : T :=
  if bool_decide (i ∈ live t) && negb (paused t)
  then mk (timerId t) (startTime t) (now - startTime t) (paused t)
          (live t) (nextId t) (calls t ++ [(now - startTime t)%Z])
  else t.

Definition pause (t : T) : T :=
  mk (timerId t) (startTime t) (elapsed t) true (live t) (nextId t) (calls t).

Definition resume (now : Z) (t : T) : T :=
  if paused t
  then mk (timerId t) (now - elapsed t) (elapsed t) false
          (live t) (nextId t) (calls t)
  else t.

Definition stop (t : T) : T :=
  match timerId t with
  | Some i =>
      mk None (startTime t) 0 false
         (filter (λ j, j ≠ i) (live t)) (nextId t) (calls t)
  | None =>
      mk None (startTime t) 0 false (live t) (nextId t) (calls t)
  end.

Definition reset (t : T) : T :=
  let t' := stop t in
  mk (timerId t') (startTime t') 0 (paused t') (live t') (nextId t') (calls t').

Definition getElapsed (t : T) : Z := elapsed t.

Definition isRunning (t : T) : bool :=
  bool_decide (timerId t <> None) && negb (paused t).

(** The calls a program can make, and interval callbacks. *)
Inductive Op :=
  | Start (now : Z)
  | Fire (i : nat) (now : Z)
  | Pause
  | Resume (now : Z)
  | Stop
  | Reset.

Definition step (op : Op) (t : T) : T :=
  match op with
  | Start now => start now t
  | Fire i now => fire i now t
  | Pause => pause t
  | Resume now => resume now t
  | Stop => stop t
  | Reset => reset t
  end.

Definition run (ops : list Op) (t : T) : T := foldl (λ t op, step op t) t ops.

(** Either no interval is live and none is remembered, or exactly the
    remembered one is live. *)
Definition inv (t : T) : Prop :=
  (timerId t = None /\ live t = []) \/
  (exists i, timerId t = Some i /\ live t = [i]).

End Timer.
(** ** Utilities: [ColorUtils]

    Colour components and amounts are integers.  A string is a sequence
    of bytes; the characters that matter here ([#], the hexadecimal
    digits, [-]) are single bytes, and no byte of another character is
    one of them. *)

Module ColorUtils.

(** The character ["0123456789abcdef"[d]]. *)
Definition hex_digit (d : Z) : Ascii.ascii :=
  Ascii.ascii_of_nat (Z.to_nat (if (d <? 10)%Z then 48 + d else 87 + d)%Z).

(** The value of a character matched by [[a-f\d]] under the [i] flag. *)
Definition hex_value (c : Ascii.ascii) : option Z :=
  let n := Z.of_nat (Ascii.nat_of_ascii c) in
  if (48 <=? n)%Z && (n <=? 57)%Z then Some (n - 48)%Z
  else if (97 <=? n)%Z && (n <=? 102)%Z then Some (n - 87)%Z
  else if (65 <=? n)%Z && (n <=? 70)%Z then Some (n - 55)%Z
  else None.

(** The hexadecimal digits of a positive integer, most significant
    first, in front of [acc]. *)
Fixpoint hex_digits (fuel : nat) (n : Z) (acc : string) : string :=
  match fuel with
  | 0 => acc
  | S fuel' =>
      let acc' := String (hex_digit (n mod 16)) acc in
      if (n / 16 =? 0)%Z then acc' else hex_digits fuel' (n / 16) acc'
  end.

(** [Number.prototype.toString (16)] on an integer. *)
Definition toString16 (n : Z) : string :=
  if (n <? 0)%Z
  then String (Ascii.ascii_of_nat 45)
         (hex_digits (S (Z.to_nat (Z.log2 (- n)))) (- n) "")
  else hex_digits (S (Z.to_nat (Z.log2 n))) n "".

(** [ToInt32] and [x << k] for [0 <= k < 32]. *)
Definition to_int32 (x : Z) : Z := ((x + 2 ^ 31) mod 2 ^ 32 - 2 ^ 31)%Z.
Definition shl (x k : Z) : Z := to_int32 (x * 2 ^ k).

(** [s.slice (1)]. *)
Definition slice1 (s : string) : string :=
  match s with
  | EmptyString => EmptyString
  | String _ rest => rest
  end.

Definition rgbToHex (r g b : Z) : string :=
  String (Ascii.ascii_of_nat 35)
    (slice1 (toString16 (shl 1 24 + shl r 16 + shl g 8 + b)%Z)).

(** [hexToRgb]: the regular expression accepts an optional [#] followed
    by exactly six hexadecimal digits of either case and nothing else;
    [None] is [null]. *)
Definition hexToRgb (hex : string) : option (Z * Z * Z) :=
  let body :=
    match hex with
    | String c rest =>
        if Nat.eqb (Ascii.nat_of_ascii c) 35 then rest else hex
    | EmptyString => hex
    end in
  match body with
  | String r1 (String r0 (String g1 (String g0
      (String b1 (String b0 EmptyString))))) =>
      match hex_value r1, hex_value r0, hex_value g1, hex_value g0,
            hex_value b1, hex_value b0 with
      | Some vr1, Some vr0, Some vg1, Some vg0, Some vb1, Some vb0 =>
          Some (16 * vr1 + vr0, 16 * vg1 + vg0, 16 * vb1 + vb0)%Z
      | _, _, _, _, _, _ => None
      end
  | _ => None
  end.

Definition lightenColor (color : string) (amount : Z) : string :=
  match hexToRgb color with
  | None => color
  | Some (r, g, b) =>
      rgbToHex (Z.min 255 (r + amount)) (Z.min 255 (g + amount))
               (Z.min 255 (b + amount))
  end.

Definition darkenColor (color : string) (amount : Z) : string :=
  match hexToRgb color with
  | None => color
  | Some (r, g, b) =>
      rgbToHex (Z.max 0 (r - amount)) (Z.max 0 (g - amount))
               (Z.max 0 (b - amount))
  end.

End ColorUtils.
(** ** Utilities: [EventEmitter]

    A listener is a function object, compared by identity.  The
    functions that callers pass in are numbered; [OnceWrapper k f] is the
    closure [onceCallback] made by the [k]-th call of [once] around the
    callback [f].  Callbacks passed in by callers are foreign code and
    are assumed not to call back into the emitter; what is recorded of
    them, in [calls], is that they were invoked and with which
    arguments.  [this.events] is a plain object: reading a name that it
    inherits from [Object.prototype] yields a value that is neither
    [undefined] nor an array. *)

Module EventEmitter.

Inductive Listener :=
  | Plain (f : nat)
  | OnceWrapper (k : nat) (f : nat).

#[global] Instance Listener_eq_dec : EqDecision Listener.
Proof. solve_decision. Defined.

(** The callback that runs when the listener is invoked. *)
Definition target (cb : Listener) : nat :=
  match cb with
  | Plain f => f
  | OnceWrapper _ f => f
  end.

(** The listeners that callers registered with [on]. *)
Definition is_plain (cb : Listener) : Prop := exists f, cb = Plain f.

Section emitter.
Context {Args : Type}.

(** The invocations that calling each listener of [l] with [args]
    records. *)
Definition invocations (args : Args) (l : list Listener) : list (nat * Args) :=
  map (λ cb, (target cb, args)) l.

Record E := mk {
  events : gmap string (list Listener);
  onceCount : nat;
  calls : list (nat * Args)
}.

Definition new : E := mk ∅ 0 [].

(** The property names that every plain object inherits. *)
Definition inherited (event : string) : bool :=
  bool_decide (event ∈
    [ "constructor"; "hasOwnProperty"; "isPrototypeOf";
      "propertyIsEnumerable"; "toLocaleString"; "toString"; "valueOf";
      "__proto__"; "__defineGetter__"; "__defineSetter__";
      "__lookupGetter__"; "__lookupSetter__" ]%string).

(** [Array.prototype.indexOf]. *)
Fixpoint indexOf (cb : Listener) (l : list Listener) : option nat :=
  match l with
  | [] => None
  | x :: l' => if decide (x = cb) then Some 0 else S <$> indexOf cb l'
  end.

(** [on]; [None] is the [TypeError] raised by calling [push] on an
    inherited value. *)
Definition on (event : string) (cb : Listener) (e : E) : option E :=
  match events e !! event with
  | Some l => Some (mk (<[event := l ++ [cb]]> (events e)) (onceCount e) (calls e))
  | None =>
      if inherited event then None
      else Some (mk (<[event := [cb]]> (events e)) (onceCount e) (calls e))
  end.

(** [off]; [None] is the [TypeError] raised by calling [indexOf] on an
    inherited value. *)
Definition off (event : string) (cb : Listener) (e : E) : option E :=
  match events e !! event with
  | Some l =>
      match indexOf cb l with
      | Some i =>
          Some (mk (<[event := delete i l]> (events e)) (onceCount e) (calls e))
      | None => Some e
      end
  | None => if inherited event then None else Some e
  end.

(** Invoking a listener of [event] with [args]. *)
Definition invoke (event : string) (args : Args) (cb : Listener) (e : E) : E :=
  let e' := mk (events e) (onceCount e) (calls e ++ [(target cb, args)]) in
  match cb with
  | Plain _ => e'
  | OnceWrapper _ _ => default e' (off event cb e')
  end.

(** [Array.prototype.forEach] over the array of [event]: the indices
    [k], [k + 1], ... below the length read at the start are visited in
    turn, and an index that the array no longer has is skipped. *)
Fixpoint forEach (n k : nat) (event : string) (args : Args) (e : E) : E :=
  match n with
  | 0 => e
  | S n' =>
      let e' :=
        match events e !! event with
        | Some l =>
            match l !! k with
            | Some cb => invoke event args cb e
            | None => e
            end
        | None => e
        end in
      forEach n' (S k) event args e'
  end.

(** [emit]; [None] is the [TypeError] raised by calling [forEach] on an
    inherited value. *)
Definition emit (event : string) (args : Args) (e : E) : option E :=
  match events e !! event with
  | Some l => Some (forEach (length l) 0 event args e)
  | None => if inherited event then None else Some e
  end.

Definition once (event : string) (f : nat) (e : E) : option E :=
  on event (OnceWrapper (onceCount e) f)
     (mk (events e) (S (onceCount e)) (calls e)).

(** [removeAllListeners]; the argument may be missing. *)
Definition removeAllListeners (event : option string) (e : E) : E :=
  match event with
  | Some (String c s) =>
      mk (delete (String c s) (events e)) (onceCount e) (calls e)
  | Some EmptyString | None => mk ∅ (onceCount e) (calls e)
  end.

End emitter.

Arguments E : clear implicits.

End EventEmitter.
(** ** Utilities: [StorageManager] and [sanitizeString] *)

Module StorageManager.

(** [removeGameData]. *)
Definition removeGameData (key : string) (ls : gmap string string)
    : gmap string string :=
  delete ("memoryMatch_" +:+ key)%string ls.

(** The loop of [clearAllGameData] over a list of keys. *)
Definition clearKeys (keys : list string) (ls : gmap string string)
    : gmap string string :=
  foldl (λ acc key,
           if String.prefix "memoryMatch_" key then delete key acc else acc)
        ls keys.

(** [clearAllGameData]: the keys are those of the storage when the call
    starts. *)
Definition clearAllGameData (ls : gmap string string) : gmap string string :=
  clearKeys (map_to_list ls).*1 ls.

End StorageManager.

Module Sanitize.

(** The replacement of one character by [sanitizeString]; the five
    characters replaced are the less-than sign (60), the greater-than
    sign (62), the double quote (34), the apostrophe (39) and the
    ampersand (38). *)
Definition escape (c : Ascii.ascii) : string :=
  match Ascii.nat_of_ascii c with
  | 60 => "&lt;"
  | 62 => "&gt;"
  | 34 => "&quot;"
  | 39 => "&#39;"
  | 38 => "&amp;"
  | _ => String c EmptyString
  end.

(** [ValidationUtils.sanitizeString]. *)
Fixpoint sanitizeString (str : string) : string :=
  match str with
  | EmptyString => EmptyString
  | String c rest => (escape c +:+ sanitizeString rest)%string
  end.

(** The characters of a string. *)
Fixpoint chars (s : string) : list Ascii.ascii :=
  match s with
  | EmptyString => []
  | String c rest => c :: chars rest
  end.

End Sanitize.
(** ** Utilities: [ParticleSystem] and [PerformanceMonitor]

    Numbers are exact rationals.  An option left out of an options
    object is [None], and [o || d] takes the default [d] for a value that
    is left out, [0] or the empty string. *)

Module ParticleSystem.

Record Options := mkOptions {
  o_velocityRange : option Q;
  o_decay : option Q;
  o_size : option Q;
  o_color : option string;
  o_type : option string
}.

Definition noOptions : Options := mkOptions None None None None None.

Record Particle := mkParticle {
  p_x : Q;
  p_y : Q;
  p_vx : Q;
  p_vy : Q;
  p_life : Q;
  p_decay : Q;
  p_size : Q;
  p_color : option string;
  p_type : string
}.

(** [particles], [maxParticles] and the number of calls of
    [Math.random ()] made so far. *)
Record T := mk {
  particles : list Particle;
  maxParticles : nat;
  draws : nat
}.

Definition new : T := mk [] 100 0.

(** Whether [o] is a value for which [o || d] takes [d]. *)
Definition falsyQ (o : option Q) : bool :=
  match o with
  | Some v => Qeq_bool v 0
  | None => true
  end.

Definition falsyS (o : option string) : bool :=
  match o with
  | Some EmptyString | None => true
  | Some _ => false
  end.

Definition orQ (o : option Q) (d : Q) : Q :=
  match o with
  | Some v => if Qeq_bool v 0 then d else v
  | None => d
  end.

Definition orS (o : option string) (d : string) : string :=
  match o with
  | Some EmptyString | None => d
  | Some s => s
  end.

Definition randomColors : list string :=
  [ "#FF6B6B"; "#4ECDC4"; "#45B7D1"; "#96CEB4";
    "#FECA57"; "#FF9FF3"; "#54A0FF"; "#5F27CD" ]%string.

Definition burstColors : list string :=
  [ "#FFD93D"; "#6BCF7F"; "#4D96FF"; "#FF6B9D";
    "#C44569"; "#F8B500"; "#6C5CE7"; "#00D2D3" ]%string.

Section random.
Variable rand : nat -> Q.

(** [colors[Math.floor (Math.random () * colors.length)]] for the draw
    number [k]. *)
Definition pick (colors : list string) (k : nat) : option string :=
  colors !! Z.to_nat (Qfloor (rand k * Qnat (length colors))).

(** [createParticle]: the draws are made in the order in which the
    fields of the object literal are evaluated. *)
Definition createParticle (x y : Q) (options : Options) (s : T) : T :=
  let k := draws s in
  let range := orQ (o_velocityRange options) 4 in
  let vx := ((rand k - (1 # 2)) * range)%Q in
  let vy := ((rand (k + 1) - (1 # 2)) * range)%Q in
  let k1 := k + 2 in
  let size := if falsyQ (o_size options) then (rand k1 * 4 + 2)%Q
              else orQ (o_size options) 0 in
  let k2 := if falsyQ (o_size options) then k1 + 1 else k1 in
  let color := if falsyS (o_color options) then pick randomColors k2
               else o_color options in
  let k3 := if falsyS (o_color options) then k2 + 1 else k2 in
  let particle :=
    mkParticle x y vx vy 1 (orQ (o_decay options) (2 # 100)) size color
      (orS (o_type options) "circle") in
  let pushed := particles s ++ [particle] in
  mk (if bool_decide (maxParticles s < length pushed) then drop 1 pushed
      else pushed)
     (maxParticles s) k3.

(** One round of the loop of [createBurst]. *)
Definition burstOne (x y : Q) (options : Options) (s : T) : T :=
  let k := draws s in
  let color := if falsyS (o_color options) then pick burstColors k
               else o_color options in
  let s' := if falsyS (o_color options)
            then mk (particles s) (maxParticles s) (k + 1) else s in
  createParticle x y
    (mkOptions (Some 6%Q) (Some (15 # 1000)%Q) (o_size options) color
       (o_type options)) s'.

Definition createBurst (x y : Q) (count : nat) (options : Options) (s : T) : T :=
  Nat.iter count (burstOne x y options) s.

(** One round of the loop of [createTrail]. *)
Definition trailOne (x y : Q) (s : T) : T :=
  let k := draws s in
  let px := (x + (rand k - (1 # 2)) * 10)%Q in
  let py := (y + (rand (k + 1) - (1 # 2)) * 10)%Q in
  let size := (rand (k + 2) * 2 + 1)%Q in
  createParticle px py
    (mkOptions (Some 2%Q) (Some (3 # 100)%Q) (Some size)
       (Some "rgba(255, 255, 255, 0.8)"%string) None)
    (mk (particles s) (maxParticles s) (k + 3)).

Definition createTrail (x y : Q) (count : nat) (s : T) : T :=
  Nat.iter count (trailOne x y) s.

(** The particle as [update] leaves it. *)
Definition move (p : Particle) : Particle :=
  mkParticle (p_x p + p_vx p) (p_y p + p_vy p)
    (p_vx p * (99 # 100)) ((p_vy p + (1 # 10)) * (99 # 100))
    (p_life p - p_decay p) (p_decay p) (p_size p) (p_color p) (p_type p).

Definition alive (p : Particle) : bool :=
  negb (Qle_bool (p_life p) 0).

Definition update (s : T) : T :=
  mk (filter (λ p, alive p = true) (map move (particles s)))
     (maxParticles s) (draws s).

Definition clear (s : T) : T := mk [] (maxParticles s) (draws s).

Definition getParticleCount (s : T) : nat := length (particles s).

(** The list of particles is no longer than [maxParticles]. *)
Definition bounded (s : T) : Prop := length (particles s) <= maxParticles s.

Inductive Op :=
  | CreateParticle (x y : Q) (options : Options)
  | CreateBurst (x y : Q) (count : nat) (options : Options)
  | CreateTrail (x y : Q) (count : nat)
  | Update
  | Clear.

Definition step (op : Op) (s : T) : T :=
  match op with
  | CreateParticle x y options => createParticle x y options s
  | CreateBurst x y count options => createBurst x y count options s
  | CreateTrail x y count => createTrail x y count s
  | Update => update s
  | Clear => clear s
  end.

Definition run (ops : list Op) (s : T) : T := foldl (λ s op, step op s) s ops.

End random.

End ParticleSystem.

Module PerformanceMonitor.

Record T := mk {
  frameCount : Z;
  lastTime : Q;
  fps : Z;
  frameHistory : list Z;
  maxHistorySize : nat;
  isMonitoring : bool
}.

(** The constructor, run at time [now] of [performance.now ()]. *)
Definition new (now : Q) : T := mk 0 now 60 [] 60 false.

(** [Math.round]. *)
Definition round (x : Q) : Z := Qfloor (x + (1 # 2)).

(** [measureFrame] at time [now]; the request for the next animation
    frame is left to the caller. *)
Definition measureFrame (now : Q) (m : T) : T :=
  if negb (isMonitoring m) then m
  else
    let deltaTime := (now - lastTime m)%Q in
    let count := (frameCount m + 1)%Z in
    if Qle_bool 1000 deltaTime then
      let fps' := round (inject_Z (count * 1000) / deltaTime) in
      let pushed := frameHistory m ++ [fps'] in
      mk 0 now fps'
         (if bool_decide (maxHistorySize m < length pushed) then drop 1 pushed
          else pushed)
         (maxHistorySize m) (isMonitoring m)
    else mk count (lastTime m) (fps m) (frameHistory m) (maxHistorySize m)
            (isMonitoring m).

Definition startMonitoring (now : Q) (m : T) : T :=
  measureFrame now
    (mk (frameCount m) (lastTime m) (fps m) (frameHistory m)
        (maxHistorySize m) true).

Definition stopMonitoring (m : T) : T :=
  mk (frameCount m) (lastTime m) (fps m) (frameHistory m)
     (maxHistorySize m) false.

Definition sum (l : list Z) : Z := foldl Z.add 0%Z l.

Definition getAverageFPS (m : T) : Z :=
  match frameHistory m with
  | [] => fps m
  | _ => round (inject_Z (sum (frameHistory m))
                / inject_Z (Z.of_nat (length (frameHistory m))))
  end.

Inductive Op :=
  | StartMonitoring (now : Q)
  | StopMonitoring
  | MeasureFrame (now : Q).

Definition step (op : Op) (m : T) : T :=
  match op with
  | StartMonitoring now => startMonitoring now m
  | StopMonitoring => stopMonitoring m
  | MeasureFrame now => measureFrame now m
  end.

Definition run (ops : list Op) (m : T) : T := foldl (λ m op, step op m) m ops.

End PerformanceMonitor.

(** * Properties *)

(** ** Lists and lookups *)

Lemma find_index_Some {A} (p : A -> bool) (l : list A) (i : nat) :
  find_index p l = Some i -> exists a, l !! i = Some a /\ p a = true.
Proof.
  revert i. induction l as [|a l IH]; intros i H; simpl in H; [discriminate|].
  destruct (p a) eqn:Hp.
  - injection H as <-. exists a. split; [reflexivity|exact Hp].
  - destruct (find_index p l) as [k|] eqn:Hk; simpl in H; [|discriminate].
    injection H as <-. destruct (IH k eq_refl) as (b & Hb & Hpb).
    exists b. split; [exact Hb|exact Hpb].
Qed.

Lemma find_index_None {A} (p : A -> bool) (l : list A) :
  (forall i a, l !! i = Some a -> p a = false) -> find_index p l = None.
Proof.
  induction l as [|a l IH]; intros H; simpl; [reflexivity|].
  rewrite (H 0 a eq_refl). rewrite IH; [reflexivity|].
  intros i b Hb. exact (H (S i) b Hb).
Qed.

(** What a click does when the buffer is not full. *)
Lemma handleCardClick_cases x y now w :
  length (flippedCards w) < 2 ->
  handleCardClick x y now w = w \/
  exists i c, cards w !! i = Some c /\ clickable x y c = true /\
              handleCardClick x y now w = flipCard i now w.
Proof.
  intros Hlen. unfold handleCardClick.
  rewrite bool_decide_eq_false_2 by lia.
  destruct (find_index (clickable x y) (cards w)) as [i|] eqn:Hf.
  - right. destruct (find_index_Some _ _ _ Hf) as (c & Hc & Hp).
    exists i, c. auto.
  - left. reflexivity.
Qed.

Lemma clickable_flags x y c :
  clickable x y c = true ->
  inside x y c = true /\ isFlipped c = false /\ isMatched c = false.
Proof.
  unfold clickable. intros H.
  apply andb_prop in H as [H H3]. apply andb_prop in H as [H1 H2].
  repeat split; [exact H1| |]; apply negb_true_iff; assumption.
Qed.

(** ** C1: resolution of a matching pair *)

(** C1. In a state whose flip buffer holds exactly two cards with equal
    symbols, [checkMatch] succeeds, marks both cards matched, adds one to
    [matchedPairs], empties the flip buffer and adds to the score exactly
    [max (10, 100 + max (0, timeBonus - floor (gameTime / 1000))
    - max (0, moves * 5))].  The [moves] in the formula is the counter of
    that state, which the selection of the second card has already
    incremented. *)
Theorem checkMatch_match w i1 i2 card1 card2 :
  flippedCards w = [i1; i2] ->
  cards w !! i1 = Some card1 ->
  cards w !! i2 = Some card2 ->
  card_symbol card1 = card_symbol card2 ->
  exists w',
    checkMatch w = Some w' /\
    isMatched <$> cards w' !! i1 = Some true /\
    isMatched <$> cards w' !! i2 = Some true /\
    matchedPairs w' = (matchedPairs w + 1)%Z /\
    flippedCards w' = [] /\
    score w' =
      (score w +
       Z.max 10
         (100 + Z.max 0 (timeBonus (difficulties w (difficulty w))
                         - gameTime w / 1000)
          - Z.max 0 (moves w * 5)))%Z /\
    (forall w0 now,
        flippedCards w0 = [i1] -> w = flipCard i2 now w0 ->
        moves w = (moves w0 + 1)%Z).
Proof.
  intros Hf H1 H2 Hsym. unfold checkMatch. rewrite Hf, H1, H2.
  rewrite decide_True by exact Hsym.
  eexists. split; [reflexivity|].
  assert (Hm1 : isMatched <$>
                alter mark_matched i2 (alter mark_matched i1 (cards w)) !! i1
                = Some true).
  { destruct (decide (i1 = i2)) as [->|Hne].
    - rewrite list_lookup_alter_eq, list_lookup_alter_eq, H2. reflexivity.
    - rewrite list_lookup_alter_ne by congruence.
      rewrite list_lookup_alter_eq, H1. reflexivity. }
  assert (Hm2 : isMatched <$>
                alter mark_matched i2 (alter mark_matched i1 (cards w)) !! i2
                = Some true).
  { rewrite list_lookup_alter_eq.
    destruct (decide (i1 = i2)) as [->|Hne].
    - rewrite list_lookup_alter_eq, H2. reflexivity.
    - rewrite list_lookup_alter_ne by congruence. rewrite H2. reflexivity. }
  repeat split.
  - destruct (bool_decide _); exact Hm1.
  - destruct (bool_decide _); exact Hm2.
  - destruct (bool_decide _); reflexivity.
  - destruct (bool_decide _); reflexivity.
  - intros w0 now Hw0 ->. unfold flipCard. simpl. rewrite Hw0. reflexivity.
Qed.

Lemma checkMatch_match_witness :
  exists w',
    checkMatch sample_pair = Some w' /\
    matchedPairs w' = 1%Z /\ score w' = 145%Z.
Proof.
  destruct (checkMatch_match sample_pair 0 5
              (card_at 0 sample_pair) (card_at 5 sample_pair))
    as (w' & Hc & _ & _ & Hm & _ & Hs & _);
    [vm_compute; reflexivity ..|].
  exists w'. split; [exact Hc|]. split; [exact Hm|exact Hs].
Defined.

(** ** C3: resolution of a pair that does not match *)

Lemma flipCard_lookup i now w c :
  cards w !! i = Some c ->
  cards (flipCard i now w) !! i = Some (flip now c).
Proof.
  intros Hc. unfold flipCard.
  destruct (bool_decide _); simpl; rewrite list_lookup_alter_eq, Hc; reflexivity.
Qed.

Lemma flipCard_lookup_ne i j now w :
  i <> j -> cards (flipCard i now w) !! j = cards w !! j.
Proof.
  intros Hne. unfold flipCard.
  destruct (bool_decide _); simpl; rewrite list_lookup_alter_ne by exact Hne;
    reflexivity.
Qed.

(** C3. Starting from an empty flip buffer, if two clicks select the cards
    [i1] and [i2] and their symbols differ, then [checkMatch] succeeds and
    leaves both cards face down and unmatched, the score and
    [matchedPairs] as they were before the two selections, the flip
    buffer empty, and [moves] exactly one greater than before the two
    selections. *)
Theorem checkMatch_mismatch w0 x1 y1 t1 x2 y2 t2 i1 i2 card1 card2 :
  flippedCards w0 = [] ->
  let w2 := handleCardClick x2 y2 t2 (handleCardClick x1 y1 t1 w0) in
  flippedCards w2 = [i1; i2] ->
  cards w2 !! i1 = Some card1 ->
  cards w2 !! i2 = Some card2 ->
  card_symbol card1 <> card_symbol card2 ->
  exists w3 c1 c2,
    checkMatch w2 = Some w3 /\
    cards w3 !! i1 = Some c1 /\ isFlipped c1 = false /\ isMatched c1 = false /\
    cards w3 !! i2 = Some c2 /\ isFlipped c2 = false /\ isMatched c2 = false /\
    score w3 = score w0 /\
    matchedPairs w3 = matchedPairs w0 /\
    flippedCards w3 = [] /\
    moves w3 = (moves w0 + 1)%Z.
Proof.
  intros Hw0 w2 Hf H1 H2 Hsym.
  (* the first click *)
  destruct (handleCardClick_cases x1 y1 t1 w0) as [E1|(k1 & d1 & Hd1 & Hk1 & E1)];
    [rewrite Hw0; simpl; lia| |].
  { (* nothing selected: the second click cannot fill the buffer *)
    subst w2. rewrite E1 in Hf.
    destruct (handleCardClick_cases x2 y2 t2 w0)
      as [E2|(k2 & d2 & _ & _ & E2)]; [rewrite Hw0; simpl; lia| |];
      rewrite E2 in Hf.
    - rewrite Hw0 in Hf. discriminate.
    - unfold flipCard in Hf. simpl in Hf. rewrite Hw0 in Hf. simpl in Hf.
      discriminate. }
  set (w1 := handleCardClick x1 y1 t1 w0) in *.
  assert (Hw1f : flippedCards w1 = [k1]).
  { rewrite E1. unfold flipCard. simpl. rewrite Hw0. reflexivity. }
  assert (Hw1m : moves w1 = moves w0 /\ score w1 = score w0
                 /\ matchedPairs w1 = matchedPairs w0).
  { rewrite E1. unfold flipCard. simpl. rewrite Hw0. simpl. auto. }
  destruct Hw1m as (Hm1 & Hs1 & Hp1).
  (* the second click *)
  destruct (handleCardClick_cases x2 y2 t2 w1) as [E2|(k2 & d2 & Hd2 & Hk2 & E2)];
    [rewrite Hw1f; simpl; lia| |].
  { subst w2. rewrite E2, Hw1f in Hf. discriminate. }
  assert (Hw2 : w2 = flipCard k2 t2 w1) by exact E2.
  assert (Hw2f : flippedCards w2 = [k1; k2]).
  { rewrite Hw2. unfold flipCard. simpl. rewrite Hw1f. reflexivity. }
  rewrite Hf in Hw2f. injection Hw2f as -> ->.
  assert (Hw2m : moves w2 = (moves w0 + 1)%Z /\ score w2 = score w0
                 /\ matchedPairs w2 = matchedPairs w0).
  { rewrite Hw2. unfold flipCard. simpl. rewrite Hw1f. simpl.
    rewrite Hm1, Hs1, Hp1. auto. }
  destruct Hw2m as (Hm2 & Hs2 & Hp2).
  (* the two cards were face down and unmatched when selected *)
  apply clickable_flags in Hk1 as (_ & _ & Hd1m).
  apply clickable_flags in Hk2 as (_ & Hd2f & Hd2m).
  assert (Hne : k1 <> k2).
  { intros ->. rewrite E1 in Hd2. rewrite (flipCard_lookup _ _ _ _ Hd1) in Hd2.
    injection Hd2 as <-. discriminate. }
  assert (Hc1 : card1 = flip t1 d1).
  { rewrite Hw2, flipCard_lookup_ne in H1 by congruence.
    rewrite E1, (flipCard_lookup _ _ _ _ Hd1) in H1.
    congruence. }
  assert (Hc2 : card2 = flip t2 d2).
  { rewrite Hw2, (flipCard_lookup _ _ _ _ Hd2) in H2. congruence. }
  exists (set_flippedCards []
            (set_cards (alter unflip k2 (alter unflip k1 (cards w2))) w2)),
    (unflip card1), (unflip card2).
  split.
  { unfold checkMatch. rewrite Hf, H1, H2.
    rewrite decide_False by exact Hsym. reflexivity. }
  simpl. repeat split.
  - rewrite list_lookup_alter_ne by congruence.
    rewrite list_lookup_alter_eq, H1. reflexivity.
  - rewrite Hc1. simpl. exact Hd1m.
  - rewrite list_lookup_alter_eq, list_lookup_alter_ne by congruence.
    rewrite H2. reflexivity.
  - rewrite Hc2. simpl. exact Hd2m.
  - exact Hs2.
  - exact Hp2.
  - exact Hm2.
Qed.

Lemma checkMatch_mismatch_witness :
  exists w3,
    checkMatch sample_mismatch = Some w3 /\
    score w3 = 0%Z /\ moves w3 = 1%Z /\ flippedCards w3 = [].
Proof.
  destruct (checkMatch_mismatch sample_game 40 40 100 300 40 200 0 1
              (card_at 0 sample_mismatch) (card_at 1 sample_mismatch))
    as (w3 & c1 & c2 & Hc & _ & _ & _ & _ & _ & _ & Hs & _ & Hf & Hm);
    [vm_compute; reflexivity ..| |].
  - vm_compute. discriminate.
  - exists w3. repeat split; assumption.
Defined.

(** ** C4: completion *)

Lemma saveBestScore_frame w :
  gameState (saveBestScore w) = gameState w /\
  score (saveBestScore w) = score w /\
  timeouts (saveBestScore w) = timeouts w.
Proof.
  unfold saveBestScore.
  destruct (currentBest _ _) as [b|]; [|auto].
  destruct (b <? score w)%Z; auto.
Qed.

Lemma gameComplete_spec w :
  gameState (gameComplete w) = completed /\
  score (gameComplete w) = (score w + completionBonus w)%Z /\
  timeouts (gameComplete w) = timeouts w.
Proof.
  unfold gameComplete.
  destruct (saveBestScore_frame
              (set_score (score (set_gameState completed w)
                          + Z.max 0 (1000 - gameTime (set_gameState completed w)
                                            / 1000 * 10))%Z
                         (set_gameState completed w))) as (Hg & Hs & Ht).
  rewrite Hg, Hs, Ht. auto.
Qed.



(** ** C10: restarting while paused *)

Lemma startGame_fields now rand w :
  let w' := startGame now rand w in
  gameState w' = playing /\ isPaused w' = isPaused w /\
  score w' = 0%Z /\ moves w' = 0%Z /\ matchedPairs w' = 0%Z /\
  flippedCards w' = [] /\ startTime w' = now /\
  level w' = level w /\ difficulty w' = difficulty w /\
  timeouts w' = timeouts w /\ localStorage w' = localStorage w.
Proof.
  unfold startGame, startTimer, initializeGame, createCards.
  destruct (timerInterval _); simpl; repeat split.
Qed.

Lemma togglePause_playing w :
  gameState w = playing -> isPaused (togglePause w) = negb (isPaused w).
Proof. intros Hg. unfold togglePause. rewrite Hg. reflexivity. Qed.

Lemma run_cons ev evs w : run (ev :: evs) w = run evs (step ev w).
Proof. reflexivity. Qed.

Lemma run_clicks_noop w (clicks : list (Click * Z)) :
  (forall e t, handleCanvasClick e t w = w) ->
  run (map (λ c, CanvasClick c.1 c.2) clicks) w = w.
Proof.
  intros Hclick. induction clicks as [|c clicks IH]; [reflexivity|].
  rewrite map_cons, run_cons. cbn [step]. rewrite Hclick. exact IH.
Qed.

(** C10. [startGame] resets the score, the moves, [matchedPairs] and the
    flip buffer and leaves the paused flag as it was.  Started with the
    flag set, the game is in the playing phase with the flag still set,
    every click on the canvas, and so every sequence of clicks, leaves the
    state unchanged, and the next [togglePause] clears the flag.  The same
    holds for [restartGame] and for a game started after aborting to the
    menu. *)
Theorem startGame_keeps_paused now rand w :
  isPaused w = true ->
  let w' := startGame now rand w in
  score w' = 0%Z /\ moves w' = 0%Z /\ matchedPairs w' = 0%Z /\
  flippedCards w' = [] /\
  gameState w' = playing /\
  isPaused w' = true /\
  (forall e t, handleCanvasClick e t w' = w') /\
  (forall clicks : list (Click * Z),
      run (map (λ c, CanvasClick c.1 c.2) clicks) w' = w') /\
  isPaused (togglePause w') = false /\
  isPaused (restartGame now rand w) = true /\
  isPaused (startGame now rand (showStartScreen w)) = true.
Proof.
  intros Hp w'.
  destruct (startGame_fields now rand w)
    as (Hg & Hp' & Hs & Hm & Hmp & Hf & _).
  fold w' in Hg, Hp', Hs, Hm, Hmp, Hf. rewrite Hp in Hp'.
  assert (Hclick : forall e t, handleCanvasClick e t w' = w').
  { intros e t. unfold handleCanvasClick. rewrite Hp'.
    rewrite orb_true_r. reflexivity. }
  split; [exact Hs|]. split; [exact Hm|]. split; [exact Hmp|].
  split; [exact Hf|]. split; [exact Hg|]. split; [exact Hp'|].
  split; [exact Hclick|]. split; [|split; [|split]].
  - intros clicks. apply run_clicks_noop, Hclick.
  - rewrite togglePause_playing by exact Hg. rewrite Hp'. reflexivity.
  - exact Hp'.
  - destruct (startGame_fields now rand (showStartScreen w))
      as (_ & E & _).
    rewrite E. exact Hp.
Qed.

Lemma startGame_keeps_paused_witness :
  isPaused (restartGame 5000 sample_rand sample_paused) = true /\
  step (click_at 40 40 6000) (restartGame 5000 sample_rand sample_paused)
  = restartGame 5000 sample_rand sample_paused.
Proof.
  destruct (startGame_keeps_paused 5000 sample_rand sample_paused)
    as (_ & _ & _ & _ & _ & Hp & Hclick & _); [reflexivity|].
  split; [exact Hp|]. apply Hclick.
Defined.

(** ** C9: the persisted best score *)

Lemma toNumber_toString n : toNumber (toString n) = Some n.
Proof.
  unfold toNumber, toString.
  rewrite NilZero.isi.
  - simpl. rewrite DecimalZ.of_to. reflexivity.
  - destruct n as [|p|p]; simpl; try discriminate.
    intros H. injection H as H. exact (Unsigned.to_uint_nonnil p H).
  - destruct n as [|p|p]; simpl; try discriminate.
    intros H. injection H as H. exact (Unsigned.to_uint_nonnil p H).
Qed.

Lemma toString_nonempty n : toString n <> EmptyString.
Proof.
  intros H. pose proof (toNumber_toString n) as Hn.
  rewrite H in Hn. discriminate.
Qed.

Lemma bestScore_key_inj d d' : bestScore_key d = bestScore_key d' -> d = d'.
Proof. destruct d, d'; intros H; try reflexivity; discriminate. Qed.

(** Reading back what [setItem] wrote. *)
Lemma currentBest_insert d n (ls : gmap string string) :
  currentBest d (<[bestScore_key d := toString n]> ls) = Some n.
Proof.
  unfold currentBest. rewrite lookup_insert_eq.
  pose proof (toString_nonempty n) as Hne.
  destruct (toString n) eqn:E; [contradiction|].
  rewrite <- E. apply toNumber_toString.
Qed.

Lemma currentBest_insert_ne d d' s (ls : gmap string string) :
  d <> d' -> currentBest d' (<[bestScore_key d := s]> ls) = currentBest d' ls.
Proof.
  intros Hne. unfold currentBest. rewrite lookup_insert_ne; [reflexivity|].
  intros H. apply Hne. exact (bestScore_key_inj _ _ H).
Qed.

Lemma saveBestScore_best w best :
  currentBest (difficulty w) (localStorage w) = Some best ->
  currentBest (difficulty w) (localStorage (saveBestScore w))
  = Some (Z.max best (score w)).
Proof.
  intros Hb. unfold saveBestScore. rewrite Hb.
  destruct (Z.ltb_spec best (score w)) as [Hlt|Hge]; simpl.
  - rewrite currentBest_insert. f_equal. lia.
  - rewrite Hb. f_equal. lia.
Qed.

(** C9. Let the value persisted for the current difficulty read as the
    number [best] (nothing stored reads as 0).  After [saveBestScore] the
    persisted value reads as [max best score]: a score above the best is
    stored and reads back as itself, a score lower than or equal to the
    best leaves the storage unchanged.  The values of the other
    difficulties are not touched, and a completion never lowers the
    persisted best. *)
Theorem best_score_roundtrip w best :
  currentBest (difficulty w) (localStorage w) = Some best ->
  let w' := saveBestScore w in
  currentBest (difficulty w) (localStorage w') = Some (Z.max best (score w)) /\
  ((best < score w)%Z ->
   localStorage w' !! bestScore_key (difficulty w) = Some (toString (score w))
   /\ currentBest (difficulty w) (localStorage w') = Some (score w)) /\
  ((score w <= best)%Z -> localStorage w' = localStorage w) /\
  (forall d, d <> difficulty w ->
             localStorage w' !! bestScore_key d
             = localStorage w !! bestScore_key d) /\
  (exists best',
      currentBest (difficulty w) (localStorage (gameComplete w)) = Some best'
      /\ (best <= best')%Z).
Proof.
  intros Hb w'. split; [exact (saveBestScore_best w best Hb)|].
  split; [|split; [|split]].
  - intros Hlt. subst w'. unfold saveBestScore. rewrite Hb.
    rewrite (proj2 (Z.ltb_lt _ _) Hlt). simpl.
    split; [apply lookup_insert_eq|apply currentBest_insert].
  - intros Hle. subst w'. unfold saveBestScore. rewrite Hb.
    rewrite (proj2 (Z.ltb_ge _ _) Hle). reflexivity.
  - intros d Hd. subst w'. unfold saveBestScore. rewrite Hb.
    destruct (best <? score w)%Z; simpl; [|reflexivity].
    apply lookup_insert_ne. intros H. apply Hd. symmetry.
    exact (bestScore_key_inj _ _ H).
  - unfold gameComplete.
    match goal with
    | |- context [saveBestScore ?v] =>
        pose proof (saveBestScore_best v best Hb) as Hv; simpl in Hv
    end.
    eexists. split; [exact Hv|]. lia.
Qed.

(** Saving the score of the sample game after two matches, with nothing
    stored before. *)
Lemma best_score_roundtrip_witness :
  currentBest easy (localStorage (saveBestScore sample_last_pair))
  = Some 285%Z.
Proof.
  destruct (best_score_roundtrip sample_last_pair 0) as (H & _);
    [vm_compute; reflexivity|].
  assert (Hd : difficulty sample_last_pair = easy) by (vm_compute; reflexivity).
  assert (Hs : score sample_last_pair = 285%Z) by (vm_compute; reflexivity).
  rewrite Hd, Hs in H. exact H.
Defined.

(** ** C6: board generation *)

Section shuffle.
Context {A : Type}.
Implicit Types (array : list A).

Lemma insert_head_Permutation array j a b :
  array !! j = Some b -> b :: <[j:=a]> array ≡ₚ a :: array.
Proof.
  revert j. induction array as [|h t IH]; intros j Hj; [discriminate|].
  destruct j as [|j]; simpl in *.
  - injection Hj as ->. apply perm_swap.
  - rewrite (perm_swap h b). rewrite (IH j Hj). apply perm_swap.
Qed.

(** Exchanging two slots that exist permutes the array. *)
Lemma swap_Permutation i j array a b :
  array !! i = Some a -> array !! j = Some b -> swap i j array ≡ₚ array.
Proof.
  intros Hi Hj. unfold swap. rewrite Hi, Hj.
  revert i j Hi Hj.
  induction array as [|h t IH]; intros [|i] [|j] Hi Hj; simpl in *;
    try discriminate.
  - injection Hi as ->. reflexivity.
  - injection Hi as ->. apply insert_head_Permutation. exact Hj.
  - injection Hj as ->. apply insert_head_Permutation. exact Hi.
  - f_equiv. apply IH; assumption.
Qed.

Lemma swap_length i j array : length (swap i j array) = length array.
Proof.
  unfold swap. destruct (array !! i), (array !! j); try reflexivity.
  rewrite !length_insert. reflexivity.
Qed.

Lemma shuffle_loop_length rand k i array :
  length (shuffle_loop rand k i array) = length array.
Proof.
  revert k array. induction i as [|i IH]; intros k array; simpl;
    [reflexivity|].
  rewrite IH. apply swap_length.
Qed.

Lemma shuffleArray_length rand array :
  length (shuffleArray rand array) = length array.
Proof. apply shuffle_loop_length. Qed.
End shuffle.

(** A draw in [0, 1) yields an index between 0 and [i]. *)
Lemma random_index_le r i : (0 <= r)%Q -> (r < 1)%Q -> random_index r i <= i.
Proof.
  intros H0 H1. unfold random_index, Qnat.
  set (n := Z.of_nat (i + 1)).
  assert (Hn : (0 < inject_Z n)%Q).
  { change (inject_Z 0 < inject_Z n)%Q. rewrite <- Zlt_Qlt. subst n. lia. }
  assert (Hlt : (Qfloor (r * inject_Z n) < n)%Z).
  { rewrite Zlt_Qlt.
    eapply Qle_lt_trans; [apply Qfloor_le|]. nra. }
  subst n. lia.
Qed.

Section shuffle_perm.
Context {A : Type}.
Variable rand : nat -> Q.
Hypothesis rand_unit : forall k, (0 <= rand k)%Q /\ (rand k < 1)%Q.

Lemma shuffle_loop_Permutation k i (array : list A) :
  i < length array \/ i = 0 ->
  shuffle_loop rand k i array ≡ₚ array.
Proof.
  revert k array. induction i as [|i IH]; intros k array Hi; simpl;
    [reflexivity|].
  destruct Hi as [Hi|Hi]; [|discriminate].
  destruct (rand_unit k) as [H0 H1].
  pose proof (random_index_le (rand k) (S i) H0 H1) as Hj.
  destruct (lookup_lt_is_Some_2 array (S i) Hi) as [a Ha].
  destruct (lookup_lt_is_Some_2 array (random_index (rand k) (S i))
              ltac:(lia)) as [b Hb].
  rewrite IH by (rewrite swap_length; lia).
  exact (swap_Permutation _ _ _ _ _ Ha Hb).
Qed.

Lemma shuffleArray_Permutation (array : list A) :
  shuffleArray rand array ≡ₚ array.
Proof.
  apply shuffle_loop_Permutation.
  destruct array; simpl; [right; reflexivity|left; lia].
Qed.
End shuffle_perm.

(** *** Geometry of the generated grid *)

Lemma Qnat_succ_le a b : a < b -> (Qnat a + 1 <= Qnat b)%Q.
Proof.
  intros Hab. unfold Qnat.
  change 1%Q with (inject_Z 1). rewrite <- inject_Z_plus, <- Zle_Qle. lia.
Qed.

Lemma inside_bounds x y c :
  inside x y c = true ->
  (card_x c <= x)%Q /\ (x <= card_x c + card_width c)%Q /\
  (card_y c <= y)%Q /\ (y <= card_y c + card_height c)%Q.
Proof.
  unfold inside. intros H.
  apply andb_prop in H as [H H4]. apply andb_prop in H as [H H3].
  apply andb_prop in H as [H1 H2].
  repeat split; apply Qle_bool_iff; assumption.
Qed.

(** Two slots of the grid whose rectangles share a point are the same
    slot, whatever the size of the canvas. *)
Lemma new_card_disjoint config cardWidth cardHeight cardData i j x y :
  i < rows config * cols config ->
  j < rows config * cols config ->
  inside x y (new_card config cardWidth cardHeight cardData i) = true ->
  inside x y (new_card config cardWidth cardHeight cardData j) = true ->
  i = j.
Proof.
  intros Hi Hj Ii Ij.
  apply inside_bounds in Ii as (Ix1 & Ix2 & Iy1 & Iy2).
  apply inside_bounds in Ij as (Jx1 & Jx2 & Jy1 & Jy2).
  simpl in *.
  assert (Hc : cols config <> 0) by (intros E; rewrite E in Hi; lia).
  assert (Hcol : i mod cols config = j mod cols config).
  { destruct (Nat.lt_trichotomy (i mod cols config) (j mod cols config))
      as [Hlt|[Heq|Hgt]]; [|exact Heq|]; exfalso.
    - apply Qnat_succ_le in Hlt. nra.
    - apply Qnat_succ_le in Hgt. nra. }
  assert (Hrow : i / cols config = j / cols config).
  { destruct (Nat.lt_trichotomy (i / cols config) (j / cols config))
      as [Hlt|[Heq|Hgt]]; [|exact Heq|]; exfalso.
    - apply Qnat_succ_le in Hlt. nra.
    - apply Qnat_succ_le in Hgt. nra. }
  rewrite (Nat.div_mod_eq i (cols config)), (Nat.div_mod_eq j (cols config)).
  rewrite Hcol, Hrow. reflexivity.
Qed.

Lemma createCards_lookup rand w i c :
  cards (createCards rand w) !! i = Some c ->
  i < rows (difficulties w (difficulty w)) * cols (difficulties w (difficulty w))
  /\ exists cardWidth cardHeight cardData,
      forall k, k < rows (difficulties w (difficulty w))
                    * cols (difficulties w (difficulty w)) ->
        cards (createCards rand w) !! k
        = Some (new_card (difficulties w (difficulty w))
                  cardWidth cardHeight cardData k).
Proof.
  unfold createCards. simpl. intros H.
  rewrite list_lookup_fmap in H.
  destruct (seq _ _ !! i) as [k|] eqn:Hk; [|discriminate].
  apply lookup_seq in Hk as [-> Hlt]. split; [exact Hlt|].
  do 3 eexists. intros k Hk.
  rewrite list_lookup_fmap, lookup_seq_lt by exact Hk. reflexivity.
Qed.

Lemma createCards_disjoint rand w : disjoint_cards (cards (createCards rand w)).
Proof.
  intros i j ci cj x y Hi Hj Ii Ij.
  destruct (createCards_lookup _ _ _ _ Hi) as (Hil & cw & chh & cd & Hall).
  destruct (createCards_lookup _ _ _ _ Hj) as (Hjl & _).
  rewrite (Hall i Hil) in Hi. rewrite (Hall j Hjl) in Hj.
  injection Hi as <-. injection Hj as <-.
  exact (new_card_disjoint _ _ _ _ _ _ _ _ Hil Hjl Ii Ij).
Qed.

(** *** Symbols of the generated grid *)

Lemma count_symbol_fmap sym (l : list Card) (syms : list string) :
  card_symbol <$> l = Some <$> syms ->
  count_symbol sym l = length (filter (λ s, s = sym) syms).
Proof.
  unfold count_symbol. revert syms.
  induction l as [|c l IH]; intros [|s syms] H; try discriminate;
    [reflexivity|].
  rewrite !fmap_cons in H. injection H as Hc Hl.
  rewrite !filter_cons, Hc.
  repeat case_decide; simpl; try congruence; rewrite (IH syms Hl); reflexivity.
Qed.

Lemma lookup_seq_fmap {A} (l : list A) :
  (λ i, l !! i) <$> seq 0 (length l) = Some <$> l.
Proof.
  apply list_eq. intros i. rewrite !list_lookup_fmap.
  destruct (decide (i < length l)) as [Hlt|Hge].
  - rewrite lookup_seq_lt by exact Hlt. simpl.
    destruct (lookup_lt_is_Some_2 l i Hlt) as [a Ha]. rewrite Ha. reflexivity.
  - rewrite lookup_seq_ge by lia. rewrite lookup_ge_None_2 by lia. reflexivity.
Qed.

Lemma count_absent (sym : string) (l : list string) :
  sym ∉ l -> length (filter (λ s, s = sym) l) = 0.
Proof.
  induction l as [|a l IH]; intros Hn; [reflexivity|].
  rewrite filter_cons. apply not_elem_of_cons in Hn as [Hne Hn].
  destruct (decide (a = sym)) as [E|_]; [congruence|].
  apply IH, Hn.
Qed.

Lemma count_present (sym : string) (l : list string) :
  NoDup l -> sym ∈ l -> length (filter (λ s, s = sym) l) = 1.
Proof.
  induction 1 as [|a l Ha Hl IH]; intros Hin; [inversion Hin|].
  rewrite filter_cons.
  destruct (decide (a = sym)) as [->|Hne].
  - simpl. rewrite count_absent by exact Ha. reflexivity.
  - apply elem_of_cons in Hin as [->|Hin]; [congruence|]. apply IH, Hin.
Qed.

Lemma createCards_symbols rand w :
  card_symbol <$> cards (createCards rand w)
  = (λ i, shuffleArray rand
            (take (rows (difficulties w (difficulty w))
                   * cols (difficulties w (difficulty w)) / 2) (cardSymbols w)
             ++ take (rows (difficulties w (difficulty w))
                      * cols (difficulties w (difficulty w)) / 2)
                  (cardSymbols w)) !! i)
    <$> seq 0 (rows (difficulties w (difficulty w))
               * cols (difficulties w (difficulty w))).
Proof.
  unfold createCards. simpl. rewrite <- list_fmap_compose. reflexivity.
Qed.

Lemma createCards_length rand w :
  length (cards (createCards rand w))
  = rows (difficulties w (difficulty w)) * cols (difficulties w (difficulty w)).
Proof. unfold createCards. simpl. rewrite length_fmap, length_seq. reflexivity. Qed.

Lemma spans_nonneg a len p :
  (0 <= len)%Q -> spans a len p = true -> (a <= p)%Q /\ (p <= a + len)%Q.
Proof.
  unfold spans. intros Hlen H.
  apply orb_prop in H as [H|H]; apply andb_prop in H as [H1 H2];
    apply Qle_bool_iff in H1, H2; split; lra.
Qed.

(** On a card without negative sizes the pixel rectangle is the set of
    points that the test of [handleCardClick] accepts. *)
Lemma in_rect_inside px py c :
  (0 <= card_width c)%Q -> (0 <= card_height c)%Q ->
  in_rect px py c = true -> inside px py c = true.
Proof.
  intros Hw Hh H. unfold in_rect in H. apply andb_prop in H as [Hx Hy].
  apply (spans_nonneg _ _ _ Hw) in Hx as [Hx1 Hx2].
  apply (spans_nonneg _ _ _ Hh) in Hy as [Hy1 Hy2].
  unfold inside. rewrite !andb_true_iff, !Qle_bool_iff. tauto.
Qed.

Lemma cell_size_nonneg (size : Z) (n : nat) :
  n <> 0 -> (60 + 10 * Z.of_nat n <= size)%Z ->
  (0 <= inject_Z (size - 60) / Qnat n - 10)%Q.
Proof.
  intros Hn Hs.
  assert (Hpos : (0 < Qnat n)%Q).
  { unfold Qnat. change 0%Q with (inject_Z 0). rewrite <- Zlt_Qlt. lia. }
  assert (H : (10 <= inject_Z (size - 60) / Qnat n)%Q).
  { apply Qle_shift_div_l; [exact Hpos|].
    unfold Qnat. change 10%Q with (inject_Z 10).
    rewrite <- inject_Z_mult, <- Zle_Qle. lia. }
  lra.
Qed.

Lemma createCards_sizes rand w c :
  let config := difficulties w (difficulty w) in
  (60 + 10 * Z.of_nat (cols config) <= canvas_width w)%Z ->
  (60 + 10 * Z.of_nat (rows config) <= canvas_height w)%Z ->
  c ∈ cards (createCards rand w) ->
  (0 <= card_width c)%Q /\ (0 <= card_height c)%Q.
Proof.
  intros config Hw Hh Hc. unfold createCards in Hc. simpl in Hc.
  apply list_elem_of_fmap in Hc as (k & -> & Hk).
  apply elem_of_seq in Hk as [_ Hk]. simpl in Hk. fold config in Hk.
  assert (Hcols : cols config <> 0) by (intros E; rewrite E in Hk; lia).
  assert (Hrows : rows config <> 0) by (intros E; rewrite E in Hk; lia).
  simpl. fold config. split; apply cell_size_nonneg; assumption.
Qed.

(** *** The generated board *)

(** C6, as stated, fails.  The size of the canvas is whatever the
    container leaves ([resizeCanvas]); on a canvas of 65 x 65 pixels the
    six cards of the easy profile, dealt from the shipped pool, have a
    negative width and height, and the rectangles of the first two cards
    (of all six, in fact) contain the point (25, 25). *)
Lemma small_canvas_cards_overlap :
  ~ (forall rand w,
        let config := difficulties w (difficulty w) in
        let totalCards := rows config * cols config in
        (forall k, (0 <= rand k)%Q /\ (rand k < 1)%Q) ->
        Nat.even totalCards = true ->
        totalCards / 2 <= length (cardSymbols w) ->
        NoDup (take (totalCards / 2) (cardSymbols w)) ->
        no_overlap (cards (createCards rand w))).
Proof.
  intros H.
  assert (Hrand : forall k, (0 <= sample_rand k)%Q /\ (sample_rand k < 1)%Q)
    by (intros k; unfold sample_rand; split; lra).
  specialize (H sample_rand small_canvas_menu Hrand).
  apply (H eq_refl ltac:(vm_compute; lia) ltac:(compute_done) 0 1
           (card_at 0 (createCards sample_rand small_canvas_menu))
           (card_at 1 (createCards sample_rand small_canvas_menu)));
    [vm_compute; reflexivity|vm_compute; reflexivity|lia|].
  exists 25%Q, 25%Q. split; vm_compute; reflexivity.
Qed.

(** C6, amended.  For a profile with an even number of cells and a pool
    whose first [rows * cols / 2] symbols exist and are distinct, and for
    any draws of [Math.random] in [0, 1), [createCards] deals exactly
    [rows * cols] cards, every chosen symbol is on exactly two cards and
    every card carries a chosen symbol.  When the canvas is at least
    [60 + 10 * cols] pixels wide and [60 + 10 * rows] pixels high, no card
    has a negative width or height and no two cards overlap: no point
    lies in the pixel rectangles of two different cards, edges
    included. *)
Theorem createCards_board rand w :
  let config := difficulties w (difficulty w) in
  let totalCards := rows config * cols config in
  let selectedSymbols := take (totalCards / 2) (cardSymbols w) in
  (forall k, (0 <= rand k)%Q /\ (rand k < 1)%Q) ->
  Nat.even totalCards = true ->
  totalCards / 2 <= length (cardSymbols w) ->
  NoDup selectedSymbols ->
  let w' := createCards rand w in
  length (cards w') = totalCards /\
  (forall sym, sym ∈ selectedSymbols -> count_symbol sym (cards w') = 2) /\
  (forall c, c ∈ cards w' ->
             exists sym, sym ∈ selectedSymbols /\ card_symbol c = Some sym) /\
  ((60 + 10 * Z.of_nat (cols config) <= canvas_width w)%Z ->
   (60 + 10 * Z.of_nat (rows config) <= canvas_height w)%Z ->
   (forall c, c ∈ cards w' ->
              (0 <= card_width c)%Q /\ (0 <= card_height c)%Q) /\
   no_overlap (cards w')).
Proof.
  intros config totalCards selectedSymbols Hrand Heven Hpool Hnodup w'.
  assert (Hsel : length selectedSymbols = totalCards / 2).
  { subst selectedSymbols. rewrite length_take. lia. }
  assert (Htot : totalCards = length (selectedSymbols ++ selectedSymbols)).
  { rewrite length_app, Hsel. apply Nat.even_spec in Heven as [k Hk]. 
    rewrite Hk. rewrite (Nat.mul_comm 2 k), Nat.div_mul by lia. lia. }
  assert (Hperm : shuffleArray rand (selectedSymbols ++ selectedSymbols)
                  ≡ₚ selectedSymbols ++ selectedSymbols)
    by (apply shuffleArray_Permutation; exact Hrand).
  assert (Hsyms : card_symbol <$> cards w'
                  = Some <$> shuffleArray rand
                               (selectedSymbols ++ selectedSymbols)).
  { pose proof (shuffleArray_length rand (selectedSymbols ++ selectedSymbols))
      as Hl.
    rewrite <- Htot in Hl. rewrite <- lookup_seq_fmap, Hl.
    apply createCards_symbols. }
  split; [apply createCards_length|]. split; [|split].
  - intros sym Hin.
    rewrite (count_symbol_fmap sym _ _ Hsyms).
    rewrite Hperm, filter_app, length_app.
    rewrite count_present by assumption. reflexivity.
  - intros c Hc.
    assert (Hs : card_symbol c ∈ card_symbol <$> cards w')
      by (apply list_elem_of_fmap_2; exact Hc).
    rewrite Hsyms, Hperm in Hs.
    apply list_elem_of_fmap in Hs as (sym & Hsym & Hin).
    exists sym. split; [|exact Hsym].
    apply elem_of_app in Hin as [Hin|Hin]; exact Hin.
  - intros Hw Hh.
    assert (Hsize : forall c, c ∈ cards w' ->
                      (0 <= card_width c)%Q /\ (0 <= card_height c)%Q)
      by (intros c Hc; exact (createCards_sizes rand w c Hw Hh Hc)).
    split; [exact Hsize|].
    intros i j ci cj Hi Hj Hne (px & py & Pi & Pj).
    destruct (Hsize ci (list_elem_of_lookup_2 _ _ _ Hi)) as [Wi Hgi].
    destruct (Hsize cj (list_elem_of_lookup_2 _ _ _ Hj)) as [Wj Hgj].
    apply Hne.
    apply (createCards_disjoint rand w i j ci cj px py Hi Hj);
      apply in_rect_inside; assumption.
Qed.

Lemma createCards_board_witness :
  length (cards (createCards sample_rand sample_game)) = 6 /\
  count_symbol "🎯" (cards (createCards sample_rand sample_game)) = 2 /\
  no_overlap (cards (createCards sample_rand sample_game)).
Proof.
  destruct (createCards_board sample_rand sample_game)
    as (Hlen & Hcount & _ & Hgeo).
  - intros k. unfold sample_rand. split; lra.
  - reflexivity.
  - vm_compute. lia.
  - compute_done.
  - split; [exact Hlen|]. split; [apply Hcount; compute_done|].
    apply Hgeo; vm_compute; discriminate.
Defined.

(** ** Invariants of the reachable states *)

Lemma reachable_run evs w : reachable w -> reachable (run evs w).
Proof.
  revert w. induction evs as [|ev evs IH]; intros w Hw; [exact Hw|].
  apply IH. apply reachable_step. exact Hw.
Qed.

Lemma disjoint_cards_geometry l l' :
  geometry <$> l' = geometry <$> l -> disjoint_cards l -> disjoint_cards l'.
Proof.
  intros Hg Hd i j ci cj x y Hi Hj Ii Ij.
  assert (Hl : forall k c', l' !! k = Some c' ->
                 exists c, l !! k = Some c /\ geometry c = geometry c').
  { intros k c' Hk.
    assert (E : (geometry <$> l) !! k = Some (geometry c'))
      by (rewrite <- Hg, list_lookup_fmap, Hk; reflexivity).
    rewrite list_lookup_fmap in E.
    destruct (l !! k) as [c|]; [|discriminate].
    exists c. split; [reflexivity|]. apply (inj Some). exact E. }
  destruct (Hl i ci Hi) as (di & Hdi & Gi).
  destruct (Hl j cj Hj) as (dj & Hdj & Gj).
  apply (Hd i j di dj x y Hdi Hdj).
  - unfold inside in *. unfold geometry in Gi.
    injection Gi as G1 G2 G3 G4. rewrite G1, G2, G3, G4. exact Ii.
  - unfold inside in *. unfold geometry in Gj.
    injection Gj as G1 G2 G3 G4. rewrite G1, G2, G3, G4. exact Ij.
Qed.

Lemma geometry_alter (f : Card -> Card) (i : nat) (l : list Card) :
  (forall c, geometry (f c) = geometry c) ->
  geometry <$> alter f i l = geometry <$> l.
Proof.
  intros Hf. apply list_eq. intros k. rewrite !list_lookup_fmap.
  destruct (decide (i = k)) as [->|Hne].
  - rewrite list_lookup_alter_eq. destruct (l !! k); simpl; [|reflexivity].
    rewrite Hf. reflexivity.
  - rewrite list_lookup_alter_ne by exact Hne. reflexivity.
Qed.

Lemma disjoint_cards_alter (f : Card -> Card) (i : nat) (l : list Card) :
  (forall c, geometry (f c) = geometry c) ->
  disjoint_cards l -> disjoint_cards (alter f i l).
Proof.
  intros Hf. apply disjoint_cards_geometry, geometry_alter, Hf.
Qed.

Lemma startTimer_inv w : timer_inv w -> timer_inv (startTimer w).
Proof.
  intros (Hlive & Hfresh). unfold startTimer, setInterval, clearInterval.
  destruct (timerInterval w) as [i|] eqn:Ht; simpl.
  - split.
    + right. eexists. split; [reflexivity|].
      destruct Hlive as [->|(i' & Hi' & ->)]; [reflexivity|].
      injection Hi' as <-. rewrite filter_cons, decide_False by tauto.
      reflexivity.
    + intros k Hk. injection Hk as <-. simpl. lia.
  - split.
    + right. eexists. split; [reflexivity|].
      destruct Hlive as [->|(i' & Hi' & _)]; [reflexivity|discriminate].
    + intros k Hk. injection Hk as <-. simpl. lia.
Qed.

Lemma startTimer_cards w : cards (startTimer w) = cards w.
Proof. unfold startTimer. destruct (timerInterval w); reflexivity. Qed.

Lemma Inv_startGame now rand w : Inv w -> Inv (startGame now rand w).
Proof.
  intros (_ & _ & Ht). split; [|split].
  - destruct (startGame_fields now rand w) as (_ & _ & _ & _ & _ & -> & _).
    simpl. lia.
  - unfold startGame. rewrite startTimer_cards.
    unfold initializeGame. apply createCards_disjoint.
  - unfold startGame. apply startTimer_inv. exact Ht.
Qed.

Lemma Inv_flipCard i now w :
  length (flippedCards w) < 2 -> Inv w -> Inv (flipCard i now w).
Proof.
  intros Hlen (_ & Hd & Ht). unfold flipCard, Inv.
  destruct (bool_decide _); simpl;
    (split; [rewrite length_app; simpl; lia|]);
    (split; [apply disjoint_cards_alter; [reflexivity|exact Hd]|exact Ht]).
Qed.

Lemma Inv_handleCardClick x y now w : Inv w -> Inv (handleCardClick x y now w).
Proof.
  intros HI. unfold handleCardClick.
  destruct (bool_decide_reflect (2 <= length (flippedCards w))) as [|Hlt];
    [exact HI|].
  destruct (find_index _ _); [|exact HI].
  apply Inv_flipCard; [lia|exact HI].
Qed.

Lemma Inv_handleCanvasClick e now w : Inv w -> Inv (handleCanvasClick e now w).
Proof.
  intros HI. unfold handleCanvasClick.
  destruct (_ || _); [exact HI|].
  destruct (_ || _); [exact HI|].
  apply Inv_handleCardClick, HI.
Qed.

Lemma Inv_checkMatch w w' : checkMatch w = Some w' -> Inv w -> Inv w'.
Proof.
  unfold checkMatch. intros H (_ & Hd & Ht).
  destruct (flippedCards w) as [|i1 [|i2 rest]]; try discriminate.
  destruct (cards w !! i1) as [card1|]; [|discriminate].
  destruct (cards w !! i2) as [card2|]; [|discriminate].
  destruct (decide _).
  - injection H as <-. unfold Inv.
    destruct (bool_decide _); simpl; (split; [lia|split; [|exact Ht]]);
      do 2 (apply disjoint_cards_alter; [reflexivity|]); exact Hd.
  - injection H as <-. unfold Inv. simpl.
    split; [lia|split; [|exact Ht]].
    do 2 (apply disjoint_cards_alter; [reflexivity|]). exact Hd.
Qed.

Lemma Inv_saveBestScore w : Inv w -> Inv (saveBestScore w).
Proof.
  intros HI. unfold saveBestScore.
  destruct (currentBest _ _); [|exact HI].
  destruct (_ <? _)%Z; exact HI.
Qed.

Lemma Inv_togglePause w : Inv w -> Inv (togglePause w).
Proof. intros HI. unfold togglePause. destruct (negb _); exact HI. Qed.

Lemma Inv_destroy w : Inv w -> Inv (destroy w).
Proof.
  intros HI. unfold destroy, clearInterval.
  destruct (timerInterval w) as [i|] eqn:Hi; [|exact HI].
  destruct HI as (Hf & Hd & Hlive & Hfresh).
  split; [exact Hf|]. split; [exact Hd|]. split; [|exact Hfresh].
  left. simpl.
  destruct Hlive as [->|(i' & Hi' & ->)]; [reflexivity|].
  rewrite Hi in Hi'. injection Hi' as <-.
  rewrite filter_cons, decide_False by tauto. reflexivity.
Qed.

Lemma Inv_step ev w : Inv w -> Inv (step ev w).
Proof.
  intros HI. destruct ev as [| | | | | | | | k | | | | n |]; simpl.
  - exact HI.
  - exact HI.
  - apply Inv_startGame, HI.
  - apply Inv_startGame, HI.
  - apply Inv_startGame. exact HI.
  - exact HI.
  - apply Inv_togglePause, HI.
  - apply Inv_handleCanvasClick, HI.
  - destruct k; simpl; destruct (bool_decide _); try exact HI.
    apply Inv_togglePause, HI.
  - unfold tabHidden. destruct (_ && _); [apply Inv_togglePause|]; exact HI.
  - exact HI.
  - destruct (bool_decide _); [|exact HI].
    unfold tick. destruct (_ && _); exact HI.
  - destruct (timeouts w !! n) as [[|]|]; simpl; [| |exact HI].
    + destruct (checkMatch _) as [w'|] eqn:Hc; simpl; [|exact HI].
      exact (Inv_checkMatch _ _ Hc HI).
    + unfold gameComplete. apply Inv_saveBestScore. exact HI.
  - apply Inv_destroy, HI.
Qed.

Lemma Inv_constructed cw ch ls : Inv (constructed cw ch ls).
Proof.
  split; [simpl; lia|]. split.
  - intros i j ci cj x y Hi. destruct i; discriminate.
  - split; [left; reflexivity|]. intros i Hi. discriminate.
Qed.

Lemma reachable_Inv w : reachable w -> Inv w.
Proof.
  induction 1 as [cw ch ls|ev w _ IH];
    [apply Inv_constructed|apply Inv_step, IH].
Qed.

(** ** C2: the flip buffer and clicks on revealed or matched cards *)

(** C2. In every reachable state, and so after any further events,
    clicks included, the flip buffer holds at most two cards; and a click
    at a point of the rectangle of a card that is matched or revealed
    changes nothing at all, whether it arrives at [handleCardClick] or as
    a canvas event at [handleCanvasClick]. *)
Theorem flip_buffer_bounded w :
  reachable w ->
  length (flippedCards w) <= 2 /\
  (forall evs, length (flippedCards (run evs w)) <= 2) /\
  (forall x y now i c,
      cards w !! i = Some c ->
      inside x y c = true ->
      isMatched c = true \/ isFlipped c = true ->
      handleCardClick x y now w = w) /\
  (forall e now i c,
      cards w !! i = Some c ->
      inside
        ((clientX e - rect_left e) * (inject_Z (canvas_width w) / rect_width e))
        ((clientY e - rect_top e) * (inject_Z (canvas_height w) / rect_height e))
        c = true ->
      isMatched c = true \/ isFlipped c = true ->
      handleCanvasClick e now w = w).
Proof.
  intros Hr. pose proof (reachable_Inv w Hr) as (Hf & Hd & _).
  assert (Hnoop : forall x y now i c,
             cards w !! i = Some c ->
             inside x y c = true ->
             isMatched c = true \/ isFlipped c = true ->
             handleCardClick x y now w = w).
  { intros x y now i c Hc Hin Hflag. unfold handleCardClick.
    destruct (bool_decide _); [reflexivity|].
    rewrite find_index_None; [reflexivity|].
    intros k ck Hk. destruct (clickable x y ck) eqn:Hck; [|reflexivity].
    apply clickable_flags in Hck as (Hkin & Hkf & Hkm).
    assert (k = i) by exact (Hd k i ck c x y Hk Hc Hkin Hin). subst k.
    rewrite Hc in Hk. injection Hk as <-.
    destruct Hflag; congruence. }
  split; [exact Hf|]. split; [|split; [exact Hnoop|]].
  - intros evs. apply (reachable_Inv (run evs w)), reachable_run, Hr.
  - intros e now i c Hc Hin Hflag. unfold handleCanvasClick.
    destruct (_ || _); [reflexivity|].
    destruct (_ || _); [reflexivity|].
    exact (Hnoop _ _ now i c Hc Hin Hflag).
Qed.

Lemma flip_buffer_bounded_witness :
  length (flippedCards sample_pair) <= 2 /\
  handleCardClick 40 40 300 sample_pair = sample_pair.
Proof.
  destruct (flip_buffer_bounded sample_pair) as (Hlen & _ & Hnoop & _).
  - unfold sample_pair, sample_game. do 2 apply reachable_run.
    apply reachable_constructed.
  - split; [exact Hlen|].
    apply (Hnoop 40%Q 40%Q 300%Z 0 (card_at 0 sample_pair));
      [vm_compute; reflexivity ..|].
    right. vm_compute. reflexivity.
Defined.

(** ** C8: the tick timer *)

Lemma startTimer_intervals w :
  timer_inv w ->
  intervals (startTimer w) = [nextIntervalId w] /\
  timerInterval (startTimer w) = Some (nextIntervalId w).
Proof.
  intros (Hlive & _). unfold startTimer, setInterval, clearInterval.
  destruct (timerInterval w) as [i|] eqn:Ht; simpl.
  - split; [|reflexivity].
    destruct Hlive as [->|(i' & Hi' & ->)]; [reflexivity|].
    injection Hi' as <-. rewrite filter_cons, decide_False by tauto.
    reflexivity.
  - split; [|reflexivity].
    destruct Hlive as [->|(i' & Hi' & _)]; [reflexivity|discriminate].
Qed.

Lemma tick_guard now w :
  gameState w <> playing \/ isPaused w = true -> tick now w = w.
Proof.
  intros [Hg|Hp]; unfold tick.
  - rewrite (bool_decide_eq_false_2 _ Hg), andb_false_r. reflexivity.
  - rewrite Hp. reflexivity.
Qed.

(** C8, as stated, fails: leaving the playing phase does not cancel the
    interval.  After Escape the phase is [menu] and the timer is live. *)
Lemma timer_survives_leaving_playing :
  ~ (forall w ev,
        reachable w -> gameState w = playing ->
        gameState (step ev w) <> playing -> intervals (step ev w) = []).
Proof.
  intros H.
  assert (E : intervals
                (step (KeyPress Escape)
                   (step (StartGame 0 sample_rand) (constructed 800 600 ∅)))
              = [1]) by (vm_compute; reflexivity).
  rewrite H in E.
  - discriminate E.
  - apply reachable_step, reachable_constructed.
  - vm_compute. reflexivity.
  - vm_compute. discriminate.
Qed.

(** C8, amended. In every reachable state at most one interval is live.
    [startGame] clears the interval that was live before registering a
    new one, so exactly the new one is live afterwards.  Outside the
    playing phase, and while paused, the interval is not cancelled but its
    callback changes nothing. *)
Theorem single_tick_timer w :
  reachable w ->
  length (intervals w) <= 1 /\
  (forall now rand,
      let w' := startGame now rand w in
      (forall i, i ∈ intervals w -> i ∉ intervals w') /\
      exists i', intervals w' = [i'] /\ timerInterval w' = Some i') /\
  (forall i now,
      gameState w <> playing \/ isPaused w = true ->
      step (Interval i now) w = w).
Proof.
  intros Hr. pose proof (reachable_Inv w Hr) as (_ & _ & Ht).
  split; [|split].
  - destruct Ht as ([->|(i & _ & ->)] & _); simpl; lia.
  - intros now rand w'.
    destruct (startTimer_intervals
                (initializeGame now rand (set_gameState playing w)))
      as (Hi & Hti); [exact Ht|].
    change (startTimer (initializeGame now rand (set_gameState playing w)))
      with w' in Hi, Hti.
    change (nextIntervalId (initializeGame now rand (set_gameState playing w)))
      with (nextIntervalId w) in Hi, Hti.
    split; [|exists (nextIntervalId w); split; assumption].
    intros i Hin. rewrite Hi. intros Hin'.
    apply list_elem_of_singleton in Hin'. subst i.
    destruct Ht as ([E|(k & Hk & E)] & Hfresh); rewrite E in Hin.
    + inversion Hin.
    + apply list_elem_of_singleton in Hin. subst k.
      specialize (Hfresh _ Hk). lia.
  - intros i now Hg. simpl.
    destruct (bool_decide _); [apply tick_guard, Hg|reflexivity].
Qed.

Lemma single_tick_timer_witness :
  length (intervals sample_aborted) <= 1 /\
  step (Interval 1 5000) sample_aborted = sample_aborted.
Proof.
  destruct (single_tick_timer sample_aborted) as (Hlen & _ & Hidle).
  - apply reachable_run, reachable_constructed.
  - split; [exact Hlen|]. apply Hidle. left. vm_compute. discriminate.
Defined.

(** ** C5: a symbol pool that is too short *)

(** C5, as stated, fails: with fewer distinct symbols than pairs,
    [startGame] still leaves the menu. *)
Lemma short_pool_still_starts :
  ~ (forall w now rand,
        gameState w = menu ->
        length (remove_dups (cardSymbols w))
        < rows (difficulties w (difficulty w))
          * cols (difficulties w (difficulty w)) / 2 ->
        gameState (startGame now rand w) = menu).
Proof.
  intros H. specialize (H short_pool_menu 0%Z sample_rand eq_refl).
  destruct (startGame_fields 0 sample_rand short_pool_menu) as (Hg & _).
  rewrite H in Hg; [discriminate Hg|].
  vm_compute. lia.
Qed.

(** C5, amended. [startGame] raises no error when the pool is shorter
    than the number of pairs: it enters the playing phase and deals
    [rows * cols] cards all the same, and the cards from position
    [2 * length pool] on carry no symbol. *)
Theorem short_pool_deals_blank_cards now rand w :
  let config := difficulties w (difficulty w) in
  let totalCards := rows config * cols config in
  length (cardSymbols w) < totalCards / 2 ->
  let w' := startGame now rand w in
  gameState w' = playing /\
  length (cards w') = totalCards /\
  (forall i c,
      cards w' !! i = Some c -> 2 * length (cardSymbols w) <= i ->
      card_symbol c = None).
Proof.
  intros config totalCards Hshort w'.
  destruct (startGame_fields now rand w) as (Hg & _).
  split; [exact Hg|].
  assert (Hcards : cards w'
                   = cards (createCards rand
                              (set_startTime now
                                 (set_flippedCards []
                                    (set_matchedPairs 0
                                       (set_moves 0
                                          (set_score 0
                                             (set_gameState playing w)))))))).
  { subst w'. unfold startGame. rewrite startTimer_cards. reflexivity. }
  rewrite Hcards. split; [apply createCards_length|].
  intros i c Hc Hi.
  unfold createCards in Hc. simpl in Hc.
  rewrite list_lookup_fmap in Hc.
  destruct (seq _ _ !! i) as [k|] eqn:Hk; [|discriminate].
  apply lookup_seq in Hk as [-> _]. injection Hc as <-. simpl.
  apply lookup_ge_None_2.
  rewrite shuffleArray_length, length_app, length_take. lia.
Qed.

Lemma short_pool_deals_blank_cards_witness :
  gameState (startGame 0 sample_rand short_pool_menu) = playing /\
  card_symbol (card_at 5 (startGame 0 sample_rand short_pool_menu)) = None.
Proof.
  destruct (short_pool_deals_blank_cards 0 sample_rand short_pool_menu)
    as (Hg & _ & Hblank); [vm_compute; lia|].
  split; [exact Hg|].
  apply (Hblank 5); [vm_compute; reflexivity|vm_compute; lia].
Defined.

(** ** C7: pausing and the elapsed time *)

Lemma togglePause_twice w :
  gameState (togglePause (togglePause w)) = gameState w /\
  isPaused (togglePause (togglePause w)) = isPaused w.
Proof.
  unfold togglePause.
  destruct (bool_decide_reflect (gameState w = playing)) as [Hg|Hg]; simpl.
  - rewrite Hg. simpl. split; [exact Hg|apply negb_involutive].
  - rewrite (bool_decide_eq_false_2 _ Hg). simpl. auto.
Qed.

(** The first tick after resuming shows the wall-clock time since the
    start of the game, however long the pause was. *)
Lemma tick_after_resume now w :
  gameState w = playing -> isPaused w = true ->
  gameTime (tick now (togglePause w)) = (now - startTime w)%Z.
Proof.
  intros Hg Hp. unfold togglePause, tick. rewrite Hg. simpl.
  rewrite Hp, Hg. reflexivity.
Qed.

(** C7 at a concrete run. Pausing and resuming restores the flag, and the
    clock stands still while paused, but the first tick after resuming
    shows the whole wall-clock time since the start: 61.1 s, of which
    60 s were spent paused, where the game was played for 1.1 s. *)
Lemma pause_time_is_counted :
  gameTime sample_paused_at_1s = 1000%Z /\
  isPaused sample_paused_at_1s = true /\
  gameTime (run [Interval 1 31000; Interval 1 61000] sample_paused_at_1s)
  = 1000%Z /\
  isPaused sample_resumed = false /\
  gameState sample_resumed = playing /\
  gameTime sample_resumed = 61100%Z.
Proof. vm_compute. repeat split; reflexivity. Qed.

(** * Further properties of the engine *)

(** ** Invariants of the flip buffer and the counters *)

Lemma matched_count_alter_same (f : Card -> Card) (i : nat) (l : list Card) :
  (forall c, isMatched (f c) = isMatched c) ->
  matched_count (alter f i l) = matched_count l.
Proof.
  intros Hf. unfold matched_count. revert i.
  induction l as [|c l IH]; intros [|i]; try reflexivity.
  - change (alter f 0 (c :: l)) with (f c :: l).
    rewrite !filter_cons, Hf. destruct (decide _); reflexivity.
  - change (alter f (S i) (c :: l)) with (c :: alter f i l).
    rewrite !filter_cons. destruct (decide _); simpl; rewrite IH; reflexivity.
Qed.

Lemma matched_count_mark (i : nat) (l : list Card) c :
  l !! i = Some c -> isMatched c = false ->
  matched_count (alter mark_matched i l) = S (matched_count l).
Proof.
  unfold matched_count. revert i.
  induction l as [|d l IH]; intros [|i] Hc Hm; try discriminate.
  - injection Hc as ->.
    change (alter mark_matched 0 (c :: l)) with (mark_matched c :: l).
    rewrite !filter_cons.
    rewrite decide_True by reflexivity.
    rewrite decide_False by (rewrite Hm; discriminate). reflexivity.
  - change (alter mark_matched (S i) (d :: l))
      with (d :: alter mark_matched i l).
    change ((d :: l) !! S i) with (l !! i) in Hc.
    rewrite !filter_cons. destruct (decide _); simpl;
      rewrite (IH i Hc Hm); reflexivity.
Qed.

Lemma matched_count_zero (l : list Card) :
  (forall c, c ∈ l -> isMatched c = false) -> matched_count l = 0.
Proof.
  unfold matched_count. induction l as [|c l IH]; intros H; [reflexivity|].
  rewrite filter_cons, decide_False.
  - apply IH. intros d Hd. apply H. right. exact Hd.
  - rewrite (H c) by left. discriminate.
Qed.

Lemma matched_count_le (l : list Card) : matched_count l <= length l.
Proof. apply length_filter. Qed.

Lemma matched_count_all (l : list Card) :
  matched_count l = length l <-> (forall c, c ∈ l -> isMatched c = true).
Proof.
  unfold matched_count. induction l as [|c l IH]; simpl.
  - split; [intros _ d Hd; inversion Hd|reflexivity].
  - rewrite filter_cons. destruct (decide (isMatched c = true)) as [Hc|Hc]; simpl.
    + split.
      * intros H d Hd. apply elem_of_cons in Hd as [->|Hd]; [exact Hc|].
        apply IH; [lia|exact Hd].
      * intros H. f_equal. apply IH. intros d Hd. apply H. right. exact Hd.
    + split.
      * intros H. pose proof (length_filter (λ c, isMatched c = true) l). lia.
      * intros H. exfalso. apply Hc, H. left.
Qed.

Lemma createCards_fresh rand w c :
  c ∈ cards (createCards rand w) -> isFlipped c = false /\ isMatched c = false.
Proof.
  unfold createCards. simpl. intros H.
  apply list_elem_of_fmap in H as (i & -> & _). split; reflexivity.
Qed.

Lemma startGame_cards now rand w :
  exists w0, cards (startGame now rand w) = cards (createCards rand w0).
Proof.
  eexists. unfold startGame. rewrite startTimer_cards.
  unfold initializeGame. reflexivity.
Qed.

Lemma calculateScore_floor w : (10 <= calculateScore w)%Z.
Proof. unfold calculateScore. lia. Qed.

Lemma engine_inv_startGame now rand w :
  (1 <= level w)%Z -> engine_inv (startGame now rand w).
Proof.
  intros Hl.
  destruct (startGame_fields now rand w)
    as (_ & _ & Hs & Hm & Hmp & Hf & _ & Hlv & _).
  destruct (startGame_cards now rand w) as (w0 & Hc).
  assert (Hfresh : forall c, c ∈ cards (startGame now rand w) ->
                     isFlipped c = false /\ isMatched c = false).
  { intros c. rewrite Hc. apply createCards_fresh. }
  split; [|split].
  - split; rewrite Hf; [constructor|].
    intros i. split; [intros H; inversion H|].
    intros (c & Hi & Hfl & _). apply list_elem_of_lookup_2 in Hi.
    destruct (Hfresh c Hi) as [E _]. congruence.
  - unfold counts_inv, pair_pending. rewrite Hs, Hm, Hmp, Hf, Hlv.
    rewrite matched_count_zero by (intros c Hin; apply Hfresh, Hin).
    simpl. repeat split; try lia.
  - intros H. rewrite Hf in H. discriminate.
Qed.

Lemma engine_inv_flipCard i now w c :
  cards w !! i = Some c -> isFlipped c = false -> isMatched c = false ->
  length (flippedCards w) < 2 ->
  engine_inv w -> engine_inv (flipCard i now w).
Proof.
  intros Hc Hfl Hmt Hlen ((Hnd & Hiff) & (Hcnt & Hsc & Hmv & Hlv) & _).
  assert (Hnotin : i ∉ flippedCards w).
  { intros Hin. apply Hiff in Hin as (d & Hd & Hdf & _). congruence. }
  assert (Hcards : cards (flipCard i now w) = alter (flip now) i (cards w))
    by (unfold flipCard; destruct (bool_decide _); reflexivity).
  assert (Hbuf : flippedCards (flipCard i now w) = flippedCards w ++ [i])
    by (unfold flipCard; destruct (bool_decide _); reflexivity).
  split; [|split].
  - split.
    + rewrite Hbuf. apply NoDup_app. split; [exact Hnd|]. split.
      * intros j Hj Hj'. apply list_elem_of_singleton in Hj'. congruence.
      * apply NoDup_singleton.
    + intros j. rewrite Hbuf, Hcards, elem_of_app, list_elem_of_singleton.
      destruct (decide (i = j)) as [<-|Hne].
      * rewrite list_lookup_alter_eq, Hc. simpl. split.
        -- intros _. eexists. split; [reflexivity|]. simpl. auto.
        -- intros _. right. reflexivity.
      * rewrite list_lookup_alter_ne by exact Hne. rewrite Hiff.
        split; [intros [H|H]; [exact H|congruence]|intros H; left; exact H].
  - unfold counts_inv. rewrite Hcards.
    rewrite matched_count_alter_same by reflexivity.
    assert (Hrest : matchedPairs (flipCard i now w) = matchedPairs w /\
                    score (flipCard i now w) = score w /\
                    level (flipCard i now w) = level w)
      by (unfold flipCard; destruct (bool_decide _); simpl; auto).
    destruct Hrest as (-> & -> & ->).
    split; [exact Hcnt|]. split; [exact Hsc|]. split; [|exact Hlv].
    unfold pair_pending in *. rewrite Hbuf.
    unfold flipCard. simpl.
    destruct (bool_decide_reflect (length (flippedCards w ++ [i]) = 2))
      as [E|E]; simpl.
    + rewrite length_app in E. simpl in E.
      rewrite bool_decide_eq_false_2 in Hmv by lia. lia.
    + rewrite length_app in E. simpl in E.
      destruct (bool_decide (length (flippedCards w) = 2)); lia.
  - intros H. unfold flipCard in *. simpl in *.
    destruct (bool_decide_reflect (length (flippedCards w ++ [i]) = 2))
      as [E|E]; simpl in *.
    + apply elem_of_app. right. left.
    + contradiction.
Qed.

(** A full buffer of a state that satisfies the invariants resolves. *)
Lemma checkMatch_full w :
  buffer_inv w -> length (flippedCards w) = 2 ->
  exists i1 i2 c1 c2,
    flippedCards w = [i1; i2] /\ i1 <> i2 /\
    cards w !! i1 = Some c1 /\ cards w !! i2 = Some c2 /\
    isFlipped c1 = true /\ isMatched c1 = false /\
    isFlipped c2 = true /\ isMatched c2 = false.
Proof.
  intros (Hnd & Hiff) Hlen.
  destruct (flippedCards w) as [|i1 [|i2 [|i3 rest]]] eqn:Hf;
    try discriminate.
  destruct (proj1 (Hiff i1)) as (c1 & H1 & F1 & M1); [left|].
  destruct (proj1 (Hiff i2)) as (c2 & H2 & F2 & M2); [right; left|].
  exists i1, i2, c1, c2. repeat split; try assumption.
  intros ->. apply NoDup_cons in Hnd as [Hn _]. apply Hn. left.
Qed.

Lemma engine_inv_checkMatch w w' :
  length (flippedCards w) <= 2 ->
  checkMatch w = Some w' -> buffer_inv w -> counts_inv w -> engine_inv w'.
Proof.
  intros Hle Hcm Hb (Hcnt & Hsc & Hmv & Hlv).
  assert (Hlen : length (flippedCards w) = 2).
  { unfold checkMatch in Hcm.
    destruct (flippedCards w) as [|i1 [|i2 rest]]; try discriminate.
    simpl in *. lia. }
  destruct (checkMatch_full w Hb Hlen)
    as (i1 & i2 & c1 & c2 & Hf & Hne & H1 & H2 & F1 & M1 & F2 & M2).
  destruct Hb as (Hnd & Hiff).
  assert (Hother : forall (f : Card -> Card) j c,
             alter f i2 (alter f i1 (cards w)) !! j = Some c ->
             isFlipped c = true -> isMatched c = false ->
             j = i1 \/ j = i2).
  { intros f j c Hj Fj Mj.
    destruct (decide (j = i1)) as [|N1]; [left; assumption|].
    destruct (decide (j = i2)) as [|N2]; [right; assumption|].
    rewrite !list_lookup_alter_ne in Hj by congruence.
    assert (Hin : j ∈ flippedCards w) by (apply Hiff; eauto).
    rewrite Hf in Hin. apply elem_of_cons in Hin as [|Hin]; [tauto|].
    apply list_elem_of_singleton in Hin. tauto. }
  unfold pair_pending in Hmv. rewrite bool_decide_eq_true_2 in Hmv by exact Hlen.
  unfold checkMatch in Hcm. rewrite Hf, H1, H2 in Hcm.
  destruct (decide (card_symbol c1 = card_symbol c2)) as [Hsym|Hsym].
  - (* match *)
    assert (Hw' : cards w' = alter mark_matched i2
                               (alter mark_matched i1 (cards w)) /\
                  flippedCards w' = [] /\
                  matchedPairs w' = (matchedPairs w + 1)%Z /\
                  score w' = (score w + calculateScore
                                (set_matchedPairs (matchedPairs w + 1)
                                   (set_cards
                                      (alter mark_matched i2
                                         (alter mark_matched i1 (cards w))) w)))%Z
                  /\ moves w' = moves w /\ level w' = level w).
    { injection Hcm as <-. destruct (bool_decide _); simpl; repeat split. }
    destruct Hw' as (Ec & Ef & Emp & Esc & Emv & Elv).
    split; [|split].
    + split; rewrite Ef; [constructor|].
      intros j. split; [intros H; inversion H|].
      intros (c & Hj & Fj & Mj). exfalso. rewrite Ec in Hj.
      destruct (Hother _ _ _ Hj Fj Mj) as [->| ->].
      * rewrite list_lookup_alter_ne, list_lookup_alter_eq, H1 in Hj
          by congruence.
        injection Hj as <-. discriminate.
      * rewrite list_lookup_alter_eq, list_lookup_alter_ne, H2 in Hj
          by congruence.
        injection Hj as <-. discriminate.
    + unfold counts_inv, pair_pending. rewrite Ec, Ef, Emp, Esc, Emv, Elv.
      rewrite (matched_count_mark i2 _ c2);
        [|rewrite list_lookup_alter_ne by congruence; exact H2|exact M2].
      rewrite (matched_count_mark i1 _ c1 H1 M1).
      match goal with
      | |- context [calculateScore ?v] =>
          pose proof (calculateScore_floor v)
      end.
      simpl. repeat split; lia.
    + intros H. rewrite Ef in H. discriminate.
  - (* no match *)
    injection Hcm as <-. split; [|split].
    + split; simpl; [constructor|].
      intros j. split; [intros H; inversion H|].
      intros (c & Hj & Fj & Mj). exfalso.
      destruct (Hother _ _ _ Hj Fj Mj) as [->| ->].
      * rewrite list_lookup_alter_ne, list_lookup_alter_eq, H1 in Hj
          by congruence.
        injection Hj as <-. discriminate.
      * rewrite list_lookup_alter_eq, list_lookup_alter_ne, H2 in Hj
          by congruence.
        injection Hj as <-. discriminate.
    + unfold counts_inv, pair_pending. simpl.
      rewrite !matched_count_alter_same by reflexivity.
      repeat split; lia.
    + intros H. discriminate.
Qed.

(** The invariants only read the board, the buffer, the counters and the
    pending timeouts. *)
Lemma engine_inv_frame w w' :
  cards w' = cards w -> flippedCards w' = flippedCards w ->
  matchedPairs w' = matchedPairs w -> score w' = score w ->
  moves w' = moves w -> level w' = level w -> timeouts w' = timeouts w ->
  engine_inv w -> engine_inv w'.
Proof.
  unfold engine_inv, buffer_inv, counts_inv, pending_inv, pair_pending.
  intros -> -> -> -> -> -> ->. tauto.
Qed.

Lemma engine_inv_handleCardClick x y now w :
  length (flippedCards w) <= 2 ->
  engine_inv w -> engine_inv (handleCardClick x y now w).
Proof.
  intros Hle HI. unfold handleCardClick.
  destruct (bool_decide_reflect (2 <= length (flippedCards w))) as [|Hlt];
    [exact HI|].
  destruct (find_index _ _) as [i|] eqn:Hfi; [|exact HI].
  destruct (find_index_Some _ _ _ Hfi) as (c & Hc & Hck).
  apply clickable_flags in Hck as (_ & Hfl & Hmt).
  apply (engine_inv_flipCard i now w c); try assumption. lia.
Qed.

Lemma engine_inv_handleCanvasClick e now w :
  length (flippedCards w) <= 2 ->
  engine_inv w -> engine_inv (handleCanvasClick e now w).
Proof.
  intros Hle HI. unfold handleCanvasClick.
  destruct (_ || _); [exact HI|].
  destruct (_ || _); [exact HI|].
  apply engine_inv_handleCardClick; assumption.
Qed.

Lemma engine_inv_togglePause w : engine_inv w -> engine_inv (togglePause w).
Proof. intros HI. unfold togglePause. destruct (negb _); exact HI. Qed.

Lemma engine_inv_gameComplete w : engine_inv w -> engine_inv (gameComplete w).
Proof.
  intros (Hb & (Hcnt & Hsc & Hmv & Hlv) & Hp).
  assert (E : cards (gameComplete w) = cards w /\
              flippedCards (gameComplete w) = flippedCards w /\
              matchedPairs (gameComplete w) = matchedPairs w /\
              score (gameComplete w) = (score w + completionBonus w)%Z /\
              moves (gameComplete w) = moves w /\
              level (gameComplete w) = level w /\
              timeouts (gameComplete w) = timeouts w).
  { unfold gameComplete, saveBestScore, completionBonus. simpl.
    destruct (currentBest _ _); [destruct (_ <? _)%Z|]; simpl; repeat split. }
  destruct E as (Ec & Ef & Emp & Esc & Emv & Elv & Et).
  unfold engine_inv, buffer_inv, counts_inv, pending_inv, pair_pending in *.
  rewrite Ec, Ef, Emp, Esc, Emv, Elv, Et.
  assert (0 <= completionBonus w)%Z by (unfold completionBonus; lia).
  split; [exact Hb|]. split; [|exact Hp].
  split; [exact Hcnt|]. split; [lia|]. split; [exact Hmv|exact Hlv].
Qed.

Lemma elem_of_delete_other {A} (l : list A) (n : nat) (x y : A) :
  x ∈ l -> l !! n = Some y -> x <> y -> x ∈ delete n l.
Proof.
  intros Hx Hn Hne. apply list_elem_of_lookup in Hx as [k Hk].
  assert (k <> n) by (intros ->; congruence).
  apply list_elem_of_lookup.
  destruct (decide (k < n)) as [Hlt|Hge].
  - exists k. rewrite list_lookup_delete_lt by exact Hlt. exact Hk.
  - exists (k - 1). rewrite list_lookup_delete_ge by lia.
    replace (S (k - 1)) with k by lia. exact Hk.
Qed.

Lemma checkMatch_succeeds w :
  buffer_inv w -> length (flippedCards w) = 2 ->
  exists w', checkMatch w = Some w' /\ flippedCards w' = [].
Proof.
  intros Hb Hlen.
  destruct (checkMatch_full w Hb Hlen)
    as (i1 & i2 & c1 & c2 & Hf & _ & H1 & H2 & _).
  unfold checkMatch. rewrite Hf, H1, H2.
  destruct (decide _); eexists; (split; [reflexivity|]);
    [destruct (bool_decide _)|]; reflexivity.
Qed.

Lemma engine_inv_step ev w :
  length (flippedCards w) <= 2 -> engine_inv w -> engine_inv (step ev w).
Proof.
  intros Hle HI.
  assert (Hlv : (1 <= level w)%Z)
    by (destruct HI as (_ & (_ & _ & _ & H) & _); exact H).
  destruct ev as [| | | | | | | | k | | | | n |]; simpl.
  - exact HI.
  - exact HI.
  - apply engine_inv_startGame, Hlv.
  - apply engine_inv_startGame, Hlv.
  - apply engine_inv_startGame. simpl. lia.
  - destruct HI as (Hb & (Hcnt & Hsc & Hmv & _) & Hp).
    split; [exact Hb|]. split; [|exact Hp].
    unfold counts_inv, pair_pending in *. simpl.
    repeat split; try assumption. lia.
  - apply engine_inv_togglePause, HI.
  - apply engine_inv_handleCanvasClick; assumption.
  - destruct k; simpl; destruct (bool_decide _); try exact HI.
    apply engine_inv_togglePause, HI.
  - unfold tabHidden.
    destruct (_ && _); [apply engine_inv_togglePause|]; exact HI.
  - exact HI.
  - destruct (bool_decide _); [|exact HI].
    unfold tick. destruct (_ && _); exact HI.
  - destruct (timeouts w !! n) as [cb|] eqn:Hn; [|exact HI].
    destruct HI as (Hb & Hcn & Hp).
    destruct cb; simpl.
    + destruct (checkMatch (set_timeouts (delete n (timeouts w)) w))
        as [w'|] eqn:Hc; simpl.
      * exact (engine_inv_checkMatch
                 (set_timeouts (delete n (timeouts w)) w) w' Hle Hc Hb Hcn).
      * split; [exact Hb|]. split; [exact Hcn|].
        intros H2. exfalso.
        destruct (checkMatch_succeeds
                    (set_timeouts (delete n (timeouts w)) w) Hb H2)
          as (w' & Hw' & _).
        congruence.
    + apply engine_inv_gameComplete.
      split; [exact Hb|]. split; [exact Hcn|].
      intros H2. simpl.
      apply (elem_of_delete_other _ _ _ GameComplete);
        [exact (Hp H2)|exact Hn|discriminate].
  - unfold destroy. destruct (timerInterval w); exact HI.
Qed.

Lemma engine_inv_constructed cw ch ls : engine_inv (constructed cw ch ls).
Proof.
  split; [|split].
  - split; [constructor|]. intros i. split; [intros H; inversion H|].
    intros (c & Hc & _). destruct i; discriminate.
  - unfold counts_inv, pair_pending. simpl. repeat split; lia.
  - intros H. discriminate.
Qed.

Lemma reachable_engine_inv w : reachable w -> engine_inv w.
Proof.
  induction 1 as [cw ch ls|ev w Hr IH]; [apply engine_inv_constructed|].
  apply engine_inv_step; [|exact IH].
  apply (reachable_Inv w Hr).
Qed.

Lemma sample_pair_reachable : reachable sample_pair.
Proof.
  unfold sample_pair, sample_game. do 2 apply reachable_run.
  apply reachable_constructed.
Qed.

(** X1. In every reachable state the flip buffer holds no card twice and
    holds exactly the cards that are face up and not yet matched: a card
    is in the buffer if and only if it is on the board with [isFlipped]
    set and [isMatched] clear. *)
Theorem flip_buffer_is_the_face_up_cards w :
  reachable w ->
  NoDup (flippedCards w) /\
  (forall i, i ∈ flippedCards w <->
             exists c, cards w !! i = Some c /\
                       isFlipped c = true /\ isMatched c = false).
Proof. intros Hr. exact (proj1 (reachable_engine_inv w Hr)). Qed.

Lemma flip_buffer_is_the_face_up_cards_witness :
  NoDup (flippedCards sample_pair) /\
  exists c, cards sample_pair !! 5 = Some c /\
            isFlipped c = true /\ isMatched c = false.
Proof.
  destruct (flip_buffer_is_the_face_up_cards sample_pair sample_pair_reachable)
    as (Hnd & Hiff).
  split; [exact Hnd|]. apply Hiff.
  assert (E : flippedCards sample_pair = [0; 5]) by (vm_compute; reflexivity).
  rewrite E. right. left.
Defined.

(** X2. In every reachable state [matchedPairs] is half the number of
    cards marked matched; so it never exceeds half the board, and it
    equals half the board, the test for completion in [checkMatch],
    exactly when every card is matched. *)
Theorem matchedPairs_counts_matched_cards w :
  reachable w ->
  (2 * matchedPairs w)%Z = Z.of_nat (matched_count (cards w)) /\
  (0 <= 2 * matchedPairs w <= Z.of_nat (length (cards w)))%Z /\
  ((2 * matchedPairs w)%Z = Z.of_nat (length (cards w)) <->
   forall c, c ∈ cards w -> isMatched c = true).
Proof.
  intros Hr.
  destruct (reachable_engine_inv w Hr) as (_ & (Hcnt & _) & _).
  pose proof (matched_count_le (cards w)) as Hle.
  split; [exact Hcnt|]. split; [lia|].
  rewrite <- matched_count_all. rewrite Hcnt. split; lia.
Qed.

Lemma matchedPairs_counts_matched_cards_witness :
  matched_count (cards sample_pair) = 0.
Proof.
  destruct (matchedPairs_counts_matched_cards sample_pair sample_pair_reachable)
    as (H & _).
  assert (E : matchedPairs sample_pair = 0%Z) by (vm_compute; reflexivity).
  rewrite E in H. lia.
Defined.

(** X3. In every reachable state with two cards in the flip buffer, the
    [checkMatch] callback that will resolve them is among the pending
    timeouts, and [checkMatch] does not raise: it returns a state with an
    empty buffer.  The board therefore never stays blocked on a full
    buffer. *)
Theorem full_buffer_is_resolved w :
  reachable w ->
  length (flippedCards w) = 2 ->
  CheckMatch ∈ timeouts w /\
  exists w', checkMatch w = Some w' /\ flippedCards w' = [].
Proof.
  intros Hr Hlen.
  destruct (reachable_engine_inv w Hr) as (Hb & _ & Hp).
  split; [exact (Hp Hlen)|]. exact (checkMatch_succeeds w Hb Hlen).
Qed.

Lemma full_buffer_is_resolved_witness :
  CheckMatch ∈ timeouts sample_pair /\
  exists w', checkMatch sample_pair = Some w' /\ flippedCards w' = [].
Proof.
  apply (full_buffer_is_resolved sample_pair sample_pair_reachable).
  vm_compute. reflexivity.
Defined.

(** X4. In every reachable state the counters are consistent:
    [matchedPairs] is not negative and, counting the pair that awaits
    resolution, does not exceed [moves]; the score is at least 10 points
    per matched pair; and the level is at least 1. *)
Theorem counters_are_consistent w :
  reachable w ->
  (0 <= matchedPairs w)%Z /\
  (matchedPairs w + pair_pending w <= moves w)%Z /\
  (10 * matchedPairs w <= score w)%Z /\
  (1 <= level w)%Z.
Proof.
  intros Hr.
  destruct (reachable_engine_inv w Hr) as (_ & (Hcnt & Hsc & Hmv & Hlv) & _).
  repeat split; try assumption. lia.
Qed.

Lemma counters_are_consistent_witness :
  (1 <= moves sample_pair)%Z /\ (0 <= score sample_pair)%Z.
Proof.
  destruct (counters_are_consistent sample_pair sample_pair_reachable)
    as (H0 & Hmv & Hsc & _).
  assert (E : pair_pending sample_pair = 1%Z) by (vm_compute; reflexivity).
  rewrite E in Hmv. lia.
Defined.

(** ** The card under the pointer *)

Lemma find_index_is_Some {A} (p : A -> bool) (l : list A) i a :
  l !! i = Some a -> p a = true -> exists k, find_index p l = Some k.
Proof.
  revert i. induction l as [|b l IH]; intros i Hi Hp; [discriminate|].
  simpl. destruct (p b) eqn:Hb; [eauto|].
  destruct i as [|i]; [injection Hi as ->; congruence|].
  destruct (IH i Hi Hp) as [k ->]. simpl. eauto.
Qed.

Lemma well_inside_inside x y c : well_inside x y c -> inside x y c = true.
Proof.
  unfold well_inside, edge_margin, inside. intros (H1 & H2 & H3 & H4).
  rewrite !andb_true_iff, !Qle_bool_iff. repeat split; lra.
Qed.

(** X5. In every reachable state on a canvas of at most 800 x 600 pixels
    whose buffer is not full, a click that lies in the rectangle of a
    face-down, unmatched card, at least a thousandth of a pixel away from
    its edges, selects that very card: it is turned face up, stamped with
    the time of the click and appended to the flip buffer. *)
Theorem click_selects_the_card_under_the_pointer w x y now i c :
  reachable w ->
  (canvas_width w <= 800)%Z -> (canvas_height w <= 600)%Z ->
  length (flippedCards w) < 2 ->
  cards w !! i = Some c ->
  isFlipped c = false -> isMatched c = false ->
  well_inside x y c ->
  let w' := handleCardClick x y now w in
  w' = flipCard i now w /\
  flippedCards w' = flippedCards w ++ [i] /\
  cards w' !! i = Some (flip now c).
Proof.
  intros Hr _ _ Hlen Hc Hf Hm Hin w'.
  apply well_inside_inside in Hin.
  assert (Hck : clickable x y c = true)
    by (unfold clickable; rewrite Hin, Hf, Hm; reflexivity).
  destruct (reachable_Inv w Hr) as (_ & Hd & _).
  assert (E : w' = flipCard i now w).
  { subst w'. unfold handleCardClick.
    rewrite bool_decide_eq_false_2 by lia.
    destruct (find_index_is_Some _ _ _ _ Hc Hck) as [k Hk]. rewrite Hk.
    destruct (find_index_Some _ _ _ Hk) as (d & Hd' & Hdk).
    apply clickable_flags in Hdk as (Hin' & _).
    rewrite (Hd k i d c x y Hd' Hc Hin' Hin). reflexivity. }
  split; [exact E|]. rewrite E. split.
  - unfold flipCard. destruct (bool_decide _); reflexivity.
  - apply flipCard_lookup, Hc.
Qed.

Lemma click_selects_the_card_under_the_pointer_witness :
  flippedCards (handleCardClick 300 40 200 (run [click_at 40 40 100] sample_game))
  = [0; 1].
Proof.
  destruct (click_selects_the_card_under_the_pointer
              (run [click_at 40 40 100] sample_game) 300 40 200 1
              (card_at 1 (run [click_at 40 40 100] sample_game)))
    as (_ & Hf & _).
  - unfold sample_game. do 2 apply reachable_run. apply reachable_constructed.
  - vm_compute. discriminate.
  - vm_compute. discriminate.
  - vm_compute. lia.
  - vm_compute. reflexivity.
  - reflexivity.
  - reflexivity.
  - unfold well_inside, edge_margin. vm_compute. repeat split; discriminate.
  - rewrite Hf. vm_compute. reflexivity.
Defined.

(** ** Scoring *)

(** X6. The points of a match are at least 10; with no negative move
    count or elapsed time they are at most [100 + timeBonus] (or 10);
    they never grow when more time has elapsed or more moves were made;
    and they are exactly 10 once five times the moves reach
    [90 + timeBonus]. *)
Theorem calculateScore_bounds w :
  (10 <= calculateScore w)%Z /\
  ((0 <= moves w)%Z -> (0 <= gameTime w)%Z ->
   (calculateScore w
    <= Z.max 10 (100 + Z.max 0 (timeBonus (difficulties w (difficulty w)))))%Z)
  /\
  (forall t t', (t <= t')%Z ->
     (calculateScore (set_gameTime t' w) <= calculateScore (set_gameTime t w))%Z)
  /\
  (forall m m', (m <= m')%Z ->
     (calculateScore (set_moves m' w) <= calculateScore (set_moves m w))%Z)
  /\
  ((0 <= gameTime w)%Z ->
   (90 + Z.max 0 (timeBonus (difficulties w (difficulty w))) <= moves w * 5)%Z ->
   calculateScore w = 10%Z).
Proof.
  unfold calculateScore. simpl.
  set (tb := timeBonus (difficulties w (difficulty w))).
  split; [lia|]. split; [|split; [|split]].
  - intros Hm Ht.
    assert (0 <= gameTime w / 1000)%Z by (apply Z.div_pos; lia). lia.
  - intros t t' Htt.
    assert (t / 1000 <= t' / 1000)%Z by (apply Z.div_le_mono; lia). lia.
  - intros m m' Hmm. lia.
  - intros Ht Hm.
    assert (0 <= gameTime w / 1000)%Z by (apply Z.div_pos; lia). lia.
Qed.

(** X7. Completion adds a bonus that is never negative; with no negative
    elapsed time it is at most 1000, it does not grow with the elapsed
    time, and it is 0 from 100 seconds on.  So [gameComplete] never
    lowers the score. *)
Theorem completion_bonus_bounds w :
  (score (gameComplete w) = score w + completionBonus w)%Z /\
  (score w <= score (gameComplete w))%Z /\
  ((0 <= gameTime w)%Z -> (completionBonus w <= 1000)%Z) /\
  ((100000 <= gameTime w)%Z -> completionBonus w = 0%Z) /\
  (forall t t', (t <= t')%Z ->
     (completionBonus (set_gameTime t' w) <= completionBonus (set_gameTime t w))%Z).
Proof.
  destruct (gameComplete_spec w) as (_ & Hs & _).
  unfold completionBonus in *. simpl.
  split; [exact Hs|]. split; [lia|]. split; [|split].
  - intros Ht. assert (0 <= gameTime w / 1000)%Z by (apply Z.div_pos; lia). lia.
  - intros Ht.
    assert (100000 / 1000 <= gameTime w / 1000)%Z
      by (apply Z.div_le_mono; lia).
    change (100000 / 1000)%Z with 100%Z in *. lia.
  - intros t t' Htt.
    assert (t / 1000 <= t' / 1000)%Z by (apply Z.div_le_mono; lia). lia.
Qed.

(** ** The clock display *)

Lemma two_digits n :
  (0 <= n < 100)%Z ->
  padStart2 (toString n)
  = String (digit_char (n / 10)) (String (digit_char (n mod 10)) "").
Proof.
  intros Hn.
  assert (H : Forall (λ n, padStart2 (toString n)
                           = String (digit_char (n / 10))
                               (String (digit_char (n mod 10)) ""))
                (seqZ 0 100)) by compute_done.
  rewrite Forall_forall in H. apply H. apply elem_of_seqZ. lia.
Qed.

(** X8. For an elapsed time from 0 up to (not including) 100 minutes,
    [formatTime] yields exactly five characters [mm:ss]: two decimal
    digits of minutes, a colon, and two decimal digits of seconds below
    60, which together give the elapsed whole seconds. *)
Theorem formatTime_mm_ss ms :
  (0 <= ms < 6000000)%Z ->
  exists m1 m0 s1 s0,
    (0 <= m1 <= 9 /\ 0 <= m0 <= 9 /\ 0 <= s1 <= 5 /\ 0 <= s0 <= 9)%Z /\
    formatTime ms
    = (String (digit_char m1) (String (digit_char m0) "") +:+ ":"
       +:+ String (digit_char s1) (String (digit_char s0) ""))%string
    /\ (ms / 1000 = (10 * m1 + m0) * 60 + (10 * s1 + s0))%Z.
Proof.
  intros Hms. unfold formatTime.
  set (seconds := (ms / 1000)%Z).
  assert (Hs : (0 <= seconds < 6000)%Z).
  { subst seconds. split; [apply Z.div_pos; lia|].
    apply Z.div_lt_upper_bound; lia. }
  assert (Hm : (0 <= seconds / 60 < 100)%Z).
  { split; [apply Z.div_pos; lia|apply Z.div_lt_upper_bound; lia]. }
  assert (Hrem : Z.rem seconds 60 = (seconds mod 60)%Z)
    by (apply Z.rem_mod_nonneg; lia).
  assert (Hr : (0 <= seconds mod 60 < 60)%Z) by (apply Z.mod_pos_bound; lia).
  rewrite Hrem, (two_digits (seconds / 60)) by lia.
  rewrite (two_digits (seconds mod 60)) by lia.
  exists (seconds / 60 / 10)%Z, (seconds / 60 mod 10)%Z,
         (seconds mod 60 / 10)%Z, (seconds mod 60 mod 10)%Z.
  split; [|split; [reflexivity|]].
  - pose proof (Z.mod_pos_bound (seconds / 60) 10).
    pose proof (Z.mod_pos_bound (seconds mod 60) 10).
    assert (0 <= seconds / 60 / 10 <= 9)%Z
      by (split; [apply Z.div_pos; lia|
                  apply Z.lt_succ_r, Z.div_lt_upper_bound; lia]).
    assert (0 <= seconds mod 60 / 10 <= 5)%Z
      by (split; [apply Z.div_pos; lia|
                  apply Z.lt_succ_r, Z.div_lt_upper_bound; lia]).
    lia.
  - pose proof (Z.div_mod (seconds / 60) 10).
    pose proof (Z.div_mod (seconds mod 60) 10).
    pose proof (Z.div_mod seconds 60). lia.
Qed.

Lemma formatTime_mm_ss_witness :
  exists m1 m0 s1 s0,
    (0 <= m1 <= 9 /\ 0 <= m0 <= 9 /\ 0 <= s1 <= 5 /\ 0 <= s0 <= 9)%Z /\
    formatTime 754321
    = (String (digit_char m1) (String (digit_char m0) "") +:+ ":"
       +:+ String (digit_char s1) (String (digit_char s0) ""))%string
    /\ (754321 / 1000 = (10 * m1 + m0) * 60 + (10 * s1 + s0))%Z.
Proof. apply (formatTime_mm_ss 754321). lia. Defined.

(** ** Starting a game over pending callbacks *)

Lemma startGame_gameTime now rand w :
  gameTime (startGame now rand w) = gameTime w.
Proof.
  unfold startGame, startTimer, initializeGame, createCards.
  destruct (timerInterval _); reflexivity.
Qed.

Lemma fire_gameComplete w n :
  timeouts w !! n = Some GameComplete ->
  gameState (step (Timeout n) w) = completed /\
  score (step (Timeout n) w) = (score w + completionBonus w)%Z.
Proof.
  intros Hn. unfold step. rewrite Hn. unfold run_callback.
  destruct (gameComplete_spec (set_timeouts (delete n (timeouts w)) w))
    as (Hgc & Hsc & _).
  split; [exact Hgc|]. rewrite Hsc. reflexivity.
Qed.

(** X9. [startGame] cancels no pending timeout.  If a [gameComplete] is
    still pending when a new game is started (a restart within the half
    second that follows the last match), it stays pending, and when it
    fires the new game is completed at once: the phase becomes
    [completed] and the score is the completion bonus alone. *)
Theorem startGame_keeps_pending_completion now rand w n :
  timeouts w !! n = Some GameComplete ->
  let w1 := startGame now rand w in
  timeouts w1 = timeouts w /\
  gameState w1 = playing /\
  gameState (step (Timeout n) w1) = completed /\
  score (step (Timeout n) w1) = completionBonus w1.
Proof.
  intros Hn w1.
  destruct (startGame_fields now rand w)
    as (Hg & _ & Hs & _ & _ & _ & _ & _ & _ & Ht & _).
  fold w1 in Hg, Hs, Ht.
  split; [exact Ht|]. split; [exact Hg|].
  rewrite <- Ht in Hn.
  destruct (fire_gameComplete w1 n Hn) as (Hgc & Hsc).
  split; [exact Hgc|]. rewrite Hsc, Hs. reflexivity.
Qed.

Lemma startGame_keeps_pending_completion_witness :
  gameState (step (Timeout 0) (restartGame 900 sample_rand sample_completing))
  = completed /\
  score (step (Timeout 0) (restartGame 900 sample_rand sample_completing))
  = 1000%Z.
Proof.
  destruct (startGame_keeps_pending_completion 900 sample_rand
              sample_completing 0) as (_ & _ & Hg & Hs);
    [vm_compute; reflexivity|].
  split; [exact Hg|]. 
  assert (E : completionBonus (startGame 900 sample_rand sample_completing)
              = 1000%Z) by (vm_compute; reflexivity).
  rewrite <- E. exact Hs.
Defined.

Lemma tick_playing now w :
  gameState w = playing -> isPaused w = false ->
  gameTime (tick now w) = (now - startTime w)%Z.
Proof. intros Hg Hp. unfold tick. rewrite Hg, Hp. reflexivity. Qed.

(** X10. [startGame] leaves the elapsed time, the level, the difficulty,
    the persisted scores and the pending timeouts as they were; the
    elapsed time of the previous game stays on display until the tick
    timer fires.  When the game is not paused, a tick of a live interval
    at time [t] sets the elapsed time to [t - now], the time since the
    start. *)
Theorem startGame_restarts_the_clock now rand w :
  let w1 := startGame now rand w in
  gameTime w1 = gameTime w /\
  level w1 = level w /\
  difficulty w1 = difficulty w /\
  localStorage w1 = localStorage w /\
  timeouts w1 = timeouts w /\
  startTime w1 = now /\
  (isPaused w = false ->
   forall i t, i ∈ intervals w1 ->
               gameTime (step (Interval i t) w1) = (t - now)%Z).
Proof.
  intros w1.
  destruct (startGame_fields now rand w)
    as (Hg & Hp & _ & _ & _ & _ & Hst & Hl & Hd & Ht & Hls).
  pose proof (startGame_gameTime now rand w) as Hgt.
  fold w1 in Hg, Hp, Hst, Hl, Hd, Ht, Hls, Hgt.
  repeat (split; [assumption|]).
  intros Hnp i t Hi. unfold step.
  rewrite bool_decide_eq_true_2 by exact Hi.
  rewrite tick_playing, Hst; [reflexivity|exact Hg|congruence].
Qed.

(** ** Hiding the tab *)

(** X11. When the tab becomes hidden, a game that is being played is
    paused; a game that is already paused, or a state outside the
    playing phase, is left as it is.  Hiding the tab twice is the same
    as hiding it once, and nothing but the pause flag ever changes. *)
Theorem tabHidden_pauses w :
  (gameState w = playing -> isPaused (tabHidden w) = true) /\
  (gameState w <> playing \/ isPaused w = true -> tabHidden w = w) /\
  tabHidden (tabHidden w) = tabHidden w /\
  tabHidden w = set_isPaused (isPaused (tabHidden w)) w.
Proof.
  destruct w as [g cs fs mp sc mv lv st gt d p ds sy cw ch ti ls iv ni ts].
  unfold tabHidden, togglePause. simpl.
  destruct g, p; simpl; repeat split; try reflexivity; try congruence;
    intros [H|H]; congruence.
Qed.

(** * Properties of the utility classes *)

(** ** [MathUtils] *)

Lemma Qle_bool_false x y : Qle_bool x y = false -> (y < x)%Q.
Proof.
  intros H. apply Qnot_le_lt. intros Hle.
  apply Qle_bool_iff in Hle. congruence.
Qed.

Lemma Qgt_bool_true x y : MathUtils.Qgt_bool x y = true <-> (y < x)%Q.
Proof.
  unfold MathUtils.Qgt_bool. split.
  - intros H. apply negb_true_iff in H. apply Qle_bool_false, H.
  - intros H. apply negb_true_iff.
    destruct (Qle_bool x y) eqn:E; [|reflexivity].
    apply Qle_bool_iff in E. exfalso. exact (Qlt_not_le _ _ H E).
Qed.

Lemma math_max_spec a b :
  (a <= MathUtils.max a b)%Q /\ (b <= MathUtils.max a b)%Q /\
  (MathUtils.max a b = a \/ MathUtils.max a b = b).
Proof.
  unfold MathUtils.max. destruct (Qle_bool a b) eqn:E.
  - apply Qle_bool_iff in E. repeat split; [exact E|apply Qle_refl|auto].
  - apply Qle_bool_false in E.
    repeat split; [apply Qle_refl|apply Qlt_le_weak, E|auto].
Qed.

Lemma math_min_spec a b :
  (MathUtils.min a b <= a)%Q /\ (MathUtils.min a b <= b)%Q /\
  (MathUtils.min a b = a \/ MathUtils.min a b = b).
Proof.
  unfold MathUtils.min. destruct (Qle_bool a b) eqn:E.
  - apply Qle_bool_iff in E. repeat split; [apply Qle_refl|exact E|auto].
  - apply Qle_bool_false in E.
    repeat split; [apply Qlt_le_weak, E|apply Qle_refl|auto].
Qed.

(** X12. For bounds with [min <= max], [clamp] returns a number between
    them, which [isInRange] accepts; it returns a value that already lies
    between the bounds unchanged (up to equality of numbers), so clamping
    twice is clamping once; and whatever the bounds, the result is one of
    the three arguments and never above [max]. *)
Theorem clamp_in_range value lo hi :
  (lo <= hi)%Q ->
  let c := MathUtils.clamp value lo hi in
  (lo <= c)%Q /\ (c <= hi)%Q /\
  ValidationUtils.isInRange c lo hi = true /\
  ((lo <= value)%Q -> (value <= hi)%Q -> (c == value)%Q) /\
  (MathUtils.clamp c lo hi == c)%Q /\
  (c = value \/ c = lo \/ c = hi).
Proof.
  intros Hlh c. subst c. unfold MathUtils.clamp.
  destruct (math_max_spec value lo) as (M1 & M2 & M3).
  destruct (math_min_spec (MathUtils.max value lo) hi) as (N1 & N2 & N3).
  set (m := MathUtils.max value lo) in *.
  set (c := MathUtils.min m hi) in *.
  assert (Hlo : (lo <= c)%Q) by (destruct N3 as [-> | ->]; assumption).
  assert (Hin : forall v, (lo <= v)%Q -> (v <= hi)%Q ->
                  (MathUtils.min (MathUtils.max v lo) hi == v)%Q).
  { intros v Hv1 Hv2. unfold MathUtils.min, MathUtils.max.
    destruct (Qle_bool v lo) eqn:E1.
    - apply Qle_bool_iff in E1.
      rewrite (proj2 (Qle_bool_iff lo hi) Hlh). apply Qle_antisym; assumption.
    - rewrite (proj2 (Qle_bool_iff v hi) Hv2). reflexivity. }
  split; [exact Hlo|]. split; [exact N2|]. split; [|split; [|split]].
  - unfold ValidationUtils.isInRange.
    rewrite (proj2 (Qle_bool_iff _ _) Hlo), (proj2 (Qle_bool_iff _ _) N2).
    reflexivity.
  - intros H1 H2. exact (Hin value H1 H2).
  - exact (Hin c Hlo N2).
  - destruct N3 as [E|E]; [|auto]. rewrite E.
    destruct M3 as [E'|E']; rewrite E'; auto.
Qed.

Lemma clamp_in_range_witness :
  (MathUtils.clamp (17 # 10) 0 1 <= 1)%Q /\
  ValidationUtils.isInRange (MathUtils.clamp (17 # 10) 0 1) 0 1 = true.
Proof.
  destruct (clamp_in_range (17 # 10) 0 1) as (_ & H & Hr & _); [lra|].
  split; assumption.
Defined.



(** X14. For two rectangles with no negative width or height,
    [rectIntersection] is true exactly when some point lies in both
    according to [pointInRect], the test that [handleCardClick] applies
    to a card; and it does not depend on the order of the rectangles. *)
Theorem rectIntersection_common_point r1x r1y r1w r1h r2x r2y r2w r2h :
  (0 <= r1w)%Q -> (0 <= r1h)%Q -> (0 <= r2w)%Q -> (0 <= r2h)%Q ->
  (MathUtils.rectIntersection r1x r1y r1w r1h r2x r2y r2w r2h = true <->
   exists px py,
     MathUtils.pointInRect px py r1x r1y r1w r1h = true /\
     MathUtils.pointInRect px py r2x r2y r2w r2h = true) /\
  MathUtils.rectIntersection r1x r1y r1w r1h r2x r2y r2w r2h
  = MathUtils.rectIntersection r2x r2y r2w r2h r1x r1y r1w r1h /\
  (forall x y c,
      inside x y c
      = MathUtils.pointInRect x y (card_x c) (card_y c)
          (card_width c) (card_height c)).
Proof.
  intros W1 H1 W2 H2.
  assert (Hrect : forall a b c d e f g h,
             MathUtils.rectIntersection a b c d e f g h = true <->
             (e <= a + c)%Q /\ (a <= e + g)%Q /\
             (f <= b + d)%Q /\ (b <= f + h)%Q).
  { intros. unfold MathUtils.rectIntersection, MathUtils.Qgt_bool.
    rewrite negb_true_iff, !orb_false_iff, !negb_false_iff, !Qle_bool_iff.
    tauto. }
  assert (Hpt : forall px py a b c d,
             MathUtils.pointInRect px py a b c d = true <->
             (a <= px)%Q /\ (px <= a + c)%Q /\ (b <= py)%Q /\ (py <= b + d)%Q).
  { intros. unfold MathUtils.pointInRect.
    rewrite !andb_true_iff, !Qle_bool_iff. tauto. }
  split; [|split].
  - rewrite Hrect. split.
    + intros (A & B & C & D).
      exists (MathUtils.max r1x r2x), (MathUtils.max r1y r2y).
      rewrite !Hpt.
      destruct (math_max_spec r1x r2x) as (X1 & X2 & [EX|EX]);
        destruct (math_max_spec r1y r2y) as (Y1 & Y2 & [EY|EY]);
        rewrite EX in *; rewrite EY in *;
        repeat split; try assumption; lra.
    + intros (px & py & P1 & P2). rewrite Hpt in P1, P2. lra.
  - apply eq_true_iff_eq. rewrite !Hrect. tauto.
  - reflexivity.
Qed.

Lemma rectIntersection_common_point_witness :
  MathUtils.rectIntersection 0 0 10 10 10 10 5 5 = true.
Proof.
  destruct (rectIntersection_common_point 0 0 10 10 10 10 5 5)
    as (H & _); try lra.
  apply H. exists 10%Q, 10%Q. split; reflexivity.
Defined.

(** ** [Timer] *)

Lemma timer_fire_paused i now t :
  Timer.paused t = true -> Timer.fire i now t = t.
Proof. intros Hp. unfold Timer.fire. rewrite Hp, andb_false_r. reflexivity. Qed.

Lemma timer_run_fire_paused (fires : list (nat * Z)) t :
  Timer.paused t = true ->
  Timer.run (map (λ f, Timer.Fire f.1 f.2) fires) t = t.
Proof.
  intros Hp. induction fires as [|f fires IH]; [reflexivity|].
  unfold Timer.run in *. simpl. rewrite timer_fire_paused by exact Hp.
  exact IH.
Qed.

(** X15. The time a [Timer] spends paused is not counted.  Take a timer
    that is not paused, pause it, let its interval fire any number of
    times, resume it at time [r] and let a live interval fire at time
    [n]: the elapsed time is then what it was at the pause plus
    [n - r].  While paused, the elapsed time does not change and the
    callback is not invoked. *)
Theorem timer_excludes_paused_time t (fires : list (nat * Z)) i r n :
  Timer.paused t = false ->
  i ∈ Timer.live t ->
  let paused_t := Timer.run (map (λ f, Timer.Fire f.1 f.2) fires)
                    (Timer.pause t) in
  let t' := Timer.fire i n (Timer.resume r paused_t) in
  Timer.elapsed paused_t = Timer.elapsed t /\
  Timer.calls paused_t = Timer.calls t /\
  Timer.elapsed t' = (Timer.elapsed t + (n - r))%Z /\
  Timer.calls t' = Timer.calls t ++ [(Timer.elapsed t + (n - r))%Z].
Proof.
  intros Hp Hi paused_t t'.
  assert (E : paused_t = Timer.pause t).
  { subst paused_t. apply timer_run_fire_paused. reflexivity. }
  subst t'. rewrite E. split; [reflexivity|]. split; [reflexivity|].
  unfold Timer.fire, Timer.resume, Timer.pause. simpl.
  rewrite bool_decide_eq_true_2 by exact Hi. simpl.
  split; [lia|]. f_equal. f_equal. lia.
Qed.

Lemma timer_excludes_paused_time_witness :
  Timer.elapsed
    (Timer.run [Timer.Start 0; Timer.Fire 8 1000; Timer.Pause;
                Timer.Fire 8 31000; Timer.Resume 61000; Timer.Fire 8 61100]
       (Timer.new 7)) = 1100%Z.
Proof.
  destruct (timer_excludes_paused_time
              (Timer.run [Timer.Start 0; Timer.Fire 8 1000] (Timer.new 7))
              [(8, 31000%Z)] 8 61000 61100) as (_ & _ & H & _).
  - reflexivity.
  - vm_compute. left.
  - exact H.
Defined.

Lemma timer_inv_step op t : Timer.inv t -> Timer.inv (Timer.step op t).
Proof.
  intros HI. destruct op as [now|i now| |now| |]; simpl.
  - unfold Timer.start.
    destruct HI as [(Ht & Hl)|(i & Ht & Hl)]; rewrite Ht.
    + right. eexists. simpl. rewrite Hl. split; reflexivity.
    + right. exists i. split; assumption.
  - unfold Timer.fire. destruct (_ && _); exact HI.
  - exact HI.
  - unfold Timer.resume. destruct (Timer.paused t); exact HI.
  - unfold Timer.stop.
    destruct HI as [(Ht & Hl)|(i & Ht & Hl)]; rewrite Ht; left; simpl.
    + split; [reflexivity|exact Hl].
    + split; [reflexivity|]. rewrite Hl.
      rewrite filter_cons, decide_False by tauto. reflexivity.
  - unfold Timer.reset, Timer.stop.
    destruct HI as [(Ht & Hl)|(i & Ht & Hl)]; rewrite Ht; left; simpl.
    + split; [reflexivity|exact Hl].
    + split; [reflexivity|]. rewrite Hl.
      rewrite filter_cons, decide_False by tauto. reflexivity.
Qed.

Lemma timer_inv_run ops t : Timer.inv t -> Timer.inv (Timer.run ops t).
Proof.
  revert t. induction ops as [|op ops IH]; intros t HI; [exact HI|].
  apply (IH (Timer.step op t)), timer_inv_step, HI.
Qed.

(** X16. A [Timer] used in any way after its creation has at most one
    live interval, and that interval is the one remembered in [timerId].
    Starting a timer that is already started changes nothing.  [stop]
    cancels the interval, zeroes the elapsed time and leaves the timer
    not running; a timer started again at time [a] after a stop counts
    from zero: when its interval fires at time [b] the elapsed time is
    [b - a]. *)
Theorem timer_single_interval ops n :
  let t := Timer.run ops (Timer.new n) in
  length (Timer.live t) <= 1 /\
  (forall i, i ∈ Timer.live t <-> Timer.timerId t = Some i) /\
  (forall a b, Timer.start b (Timer.start a t) = Timer.start a t) /\
  Timer.live (Timer.stop t) = [] /\
  Timer.elapsed (Timer.stop t) = 0%Z /\
  Timer.isRunning (Timer.stop t) = false /\
  (forall a b,
      exists i, Timer.live (Timer.start a (Timer.stop t)) = [i] /\
                Timer.elapsed (Timer.fire i b (Timer.start a (Timer.stop t)))
                = (b - a)%Z).
Proof.
  intros t.
  assert (HI : Timer.inv t)
    by (apply timer_inv_run; left; split; reflexivity).
  assert (Hstop : Timer.live (Timer.stop t) = [] /\
                  Timer.timerId (Timer.stop t) = None /\
                  Timer.elapsed (Timer.stop t) = 0%Z /\
                  Timer.paused (Timer.stop t) = false).
  { unfold Timer.stop.
    destruct HI as [(Ht & Hl)|(i & Ht & Hl)]; rewrite Ht; simpl.
    - rewrite Hl. repeat split.
    - rewrite Hl, filter_cons, decide_False by tauto. repeat split. }
  destruct Hstop as (Sl & St & Se & Sp).
  split; [|split; [|split; [|split; [|split; [|split]]]]].
  - destruct HI as [(_ & ->)|(i & _ & ->)]; simpl; lia.
  - intros i. destruct HI as [(Ht & Hl)|(k & Ht & Hl)]; rewrite Ht, Hl.
    + split; [intros H; inversion H|discriminate].
    + rewrite list_elem_of_singleton. split; congruence.
  - intros a b. unfold Timer.start at 1.
    assert (E : exists k, Timer.timerId (Timer.start a t) = Some k).
    { unfold Timer.start. destruct (Timer.timerId t) eqn:Ht; [|simpl]; eauto. }
    destruct E as [k ->]. reflexivity.
  - exact Sl.
  - exact Se.
  - unfold Timer.isRunning. rewrite St. reflexivity.
  - intros a b. exists (Timer.nextId (Timer.stop t)).
    unfold Timer.start. rewrite St. simpl. rewrite Sl. split; [reflexivity|].
    unfold Timer.fire. simpl. rewrite Sp, Se.
    rewrite bool_decide_eq_true_2 by left. simpl. lia.
Qed.

(** ** [ColorUtils] *)

Lemma hex_value_digit d :
  (0 <= d < 16)%Z -> ColorUtils.hex_value (ColorUtils.hex_digit d) = Some d.
Proof.
  intros Hd.
  assert (H : Forall (λ d, ColorUtils.hex_value (ColorUtils.hex_digit d) = Some d)
                (seqZ 0 16)) by compute_done.
  rewrite Forall_forall in H. apply H, elem_of_seqZ. lia.
Qed.

Lemma hex_value_range c v : ColorUtils.hex_value c = Some v -> (0 <= v < 16)%Z.
Proof.
  unfold ColorUtils.hex_value.
  set (n := Z.of_nat (Ascii.nat_of_ascii c)).
  repeat match goal with
         | |- context [(?a <=? ?b)%Z] => destruct (Z.leb_spec a b)
         end; simpl; intros Hv; try discriminate; injection Hv as <-; lia.
Qed.

Lemma hex_digits_step fuel q d acc :
  (0 <= d < 16)%Z -> (0 < q)%Z ->
  ColorUtils.hex_digits (S fuel) (q * 16 + d) acc
  = ColorUtils.hex_digits fuel q (String (ColorUtils.hex_digit d) acc).
Proof.
  intros Hd Hq. simpl.
  assert (Hm : ((q * 16 + d) mod 16 = d)%Z).
  { rewrite Z.add_comm, Z.mod_add by lia. apply Z.mod_small. lia. }
  assert (Hdiv : ((q * 16 + d) / 16 = q)%Z).
  { rewrite Z.add_comm, Z.div_add by lia. rewrite Z.div_small by lia. lia. }
  rewrite Hm, Hdiv. destruct (Z.eqb_spec q 0); [lia|reflexivity].
Qed.

Lemma hex_digits_last fuel d acc :
  (0 <= d < 16)%Z ->
  ColorUtils.hex_digits (S fuel) d acc = String (ColorUtils.hex_digit d) acc.
Proof.
  intros Hd. simpl. rewrite Z.mod_small, Z.div_small by lia. reflexivity.
Qed.

(** The string that [rgbToHex] builds for three bytes. *)
Lemma rgbToHex_bytes r g b :
  (0 <= r <= 255)%Z -> (0 <= g <= 255)%Z -> (0 <= b <= 255)%Z ->
  ColorUtils.rgbToHex r g b
  = String (Ascii.ascii_of_nat 35)
      (String (ColorUtils.hex_digit (r / 16))
      (String (ColorUtils.hex_digit (r mod 16))
      (String (ColorUtils.hex_digit (g / 16))
      (String (ColorUtils.hex_digit (g mod 16))
      (String (ColorUtils.hex_digit (b / 16))
      (String (ColorUtils.hex_digit (b mod 16)) "")))))).
Proof.
  intros Hr Hg Hb. unfold ColorUtils.rgbToHex. f_equal.
  assert (Hshl : forall x k, (0 <= x * 2 ^ k < 2 ^ 31)%Z ->
                   ColorUtils.shl x k = (x * 2 ^ k)%Z).
  { intros x k Hx. unfold ColorUtils.shl, ColorUtils.to_int32.
    rewrite Z.mod_small by lia. lia. }
  rewrite !Hshl by lia.
  pose proof (Z.div_mod r 16 ltac:(lia)) as Er.
  pose proof (Z.div_mod g 16 ltac:(lia)) as Eg.
  pose proof (Z.div_mod b 16 ltac:(lia)) as Eb.
  pose proof (Z.mod_pos_bound r 16 ltac:(lia)) as Br.
  pose proof (Z.mod_pos_bound g 16 ltac:(lia)) as Bg.
  pose proof (Z.mod_pos_bound b 16 ltac:(lia)) as Bb.
  assert (Dr : (0 <= r / 16 < 16)%Z)
    by (split; [apply Z.div_pos; lia|apply Z.div_lt_upper_bound; lia]).
  assert (Dg : (0 <= g / 16 < 16)%Z)
    by (split; [apply Z.div_pos; lia|apply Z.div_lt_upper_bound; lia]).
  assert (Db : (0 <= b / 16 < 16)%Z)
    by (split; [apply Z.div_pos; lia|apply Z.div_lt_upper_bound; lia]).
  set (n := (1 * 2 ^ 24 + r * 2 ^ 16 + g * 2 ^ 8 + b)%Z).
  assert (Hn : (n = ((((((1 * 16 + r / 16) * 16 + r mod 16) * 16 + g / 16)
                        * 16 + g mod 16) * 16 + b / 16) * 16 + b mod 16))%Z)
    by (subst n; lia).
  assert (Hlog : Z.log2 n = 24%Z).
  { apply Z.log2_unique; [lia|]. subst n. lia. }
  unfold ColorUtils.toString16.
  destruct (Z.ltb_spec n 0) as [Hneg|_]; [subst n; lia|].
  rewrite Hlog. change (S (Z.to_nat 24)) with 25.
  rewrite Hn.
  rewrite !hex_digits_step by lia.
  rewrite hex_digits_last by lia. reflexivity.
Qed.

Lemma rgb_hex_roundtrip_aux r g b :
  (0 <= r <= 255)%Z -> (0 <= g <= 255)%Z -> (0 <= b <= 255)%Z ->
  ColorUtils.hexToRgb (ColorUtils.rgbToHex r g b) = Some (r, g, b).
Proof.
  intros Hr Hg Hb. rewrite rgbToHex_bytes by assumption.
  unfold ColorUtils.hexToRgb.
  change (Nat.eqb (Ascii.nat_of_ascii (Ascii.ascii_of_nat 35)) 35) with true.
  cbv iota beta.
  assert (D : forall x, (0 <= x <= 255)%Z ->
                (0 <= x / 16 < 16)%Z /\ (0 <= x mod 16 < 16)%Z).
  { intros x Hx. split; [|apply Z.mod_pos_bound; lia].
    split; [apply Z.div_pos; lia|apply Z.div_lt_upper_bound; lia]. }
  destruct (D r Hr), (D g Hg), (D b Hb).
  rewrite !hex_value_digit by assumption.
  pose proof (Z.div_mod r 16 ltac:(lia)).
  pose proof (Z.div_mod g 16 ltac:(lia)).
  pose proof (Z.div_mod b 16 ltac:(lia)).
  repeat f_equal; lia.
Qed.

(** X17. For three integers between 0 and 255, [rgbToHex] returns a
    string of seven characters, [#] and six lower-case hexadecimal
    digits, and [hexToRgb] reads the three integers back from it. *)
Theorem rgb_hex_roundtrip r g b :
  (0 <= r <= 255)%Z -> (0 <= g <= 255)%Z -> (0 <= b <= 255)%Z ->
  ColorUtils.hexToRgb (ColorUtils.rgbToHex r g b) = Some (r, g, b) /\
  String.length (ColorUtils.rgbToHex r g b) = 7.
Proof.
  intros Hr Hg Hb. split; [apply rgb_hex_roundtrip_aux; assumption|].
  rewrite rgbToHex_bytes by assumption. reflexivity.
Qed.

Lemma rgb_hex_roundtrip_witness :
  ColorUtils.hexToRgb (ColorUtils.rgbToHex 255 107 0) = Some (255, 107, 0)%Z.
Proof. apply (rgb_hex_roundtrip 255 107 0); lia. Defined.

Lemma hexToRgb_inv hex r g b :
  ColorUtils.hexToRgb hex = Some (r, g, b) ->
  (0 <= r <= 255)%Z /\ (0 <= g <= 255)%Z /\ (0 <= b <= 255)%Z /\
  (String.length hex = 6 \/ String.length hex = 7).
Proof.
  unfold ColorUtils.hexToRgb.
  set (body := match hex with
               | String c rest =>
                   if Nat.eqb (Ascii.nat_of_ascii c) 35 then rest else hex
               | EmptyString => hex
               end).
  assert (Hlen : String.length body = 6 ->
                 String.length hex = 6 \/ String.length hex = 7).
  { subst body. destruct hex as [|c rest]; [auto|].
    destruct (Nat.eqb _ _); simpl; auto. }
  destruct body as [|r1 [|r0 [|g1 [|g0 [|b1 [|b0 [|]]]]]]]; try discriminate.
  destruct (ColorUtils.hex_value r1) as [vr1|] eqn:E1; [|discriminate].
  destruct (ColorUtils.hex_value r0) as [vr0|] eqn:E2; [|discriminate].
  destruct (ColorUtils.hex_value g1) as [vg1|] eqn:E3; [|discriminate].
  destruct (ColorUtils.hex_value g0) as [vg0|] eqn:E4; [|discriminate].
  destruct (ColorUtils.hex_value b1) as [vb1|] eqn:E5; [|discriminate].
  destruct (ColorUtils.hex_value b0) as [vb0|] eqn:E6; [|discriminate].
  apply hex_value_range in E1, E2, E3, E4, E5, E6.
  intros H. injection H as <- <- <-.
  repeat split; try lia. apply Hlen. reflexivity.
Qed.

(** X18. [hexToRgb] accepts only strings of six characters, or seven
    with a leading [#]; the three components it returns lie between 0
    and 255, and writing them with [rgbToHex] gives a string that
    [hexToRgb] reads as the same colour. *)
Theorem hexToRgb_components hex r g b :
  ColorUtils.hexToRgb hex = Some (r, g, b) ->
  (0 <= r <= 255)%Z /\ (0 <= g <= 255)%Z /\ (0 <= b <= 255)%Z /\
  (String.length hex = 6 \/ String.length hex = 7) /\
  ColorUtils.hexToRgb (ColorUtils.rgbToHex r g b) = Some (r, g, b).
Proof.
  intros H. destruct (hexToRgb_inv hex r g b H) as (Hr & Hg & Hb & Hl).
  repeat split; try lia; try exact Hl.
  apply rgb_hex_roundtrip_aux; assumption.
Qed.

Lemma hexToRgb_components_witness :
  ColorUtils.hexToRgb (ColorUtils.rgbToHex 78 205 196) = Some (78, 205, 196)%Z.
Proof.
  apply (hexToRgb_components "4ECDC4" 78 205 196). reflexivity.
Defined.

(** X19. For a colour that [hexToRgb] accepts and an amount that is not
    negative, [lightenColor] returns a colour whose components are the
    original ones plus the amount, capped at 255, and [darkenColor] one
    whose components are the original ones minus the amount, floored at
    0.  A string that [hexToRgb] rejects is returned unchanged. *)
Theorem lighten_darken_saturate color amount r g b :
  ColorUtils.hexToRgb color = Some (r, g, b) ->
  (0 <= amount)%Z ->
  ColorUtils.hexToRgb (ColorUtils.lightenColor color amount)
  = Some (Z.min 255 (r + amount), Z.min 255 (g + amount),
          Z.min 255 (b + amount)) /\
  ColorUtils.hexToRgb (ColorUtils.darkenColor color amount)
  = Some (Z.max 0 (r - amount), Z.max 0 (g - amount), Z.max 0 (b - amount)) /\
  (forall s a, ColorUtils.hexToRgb s = None ->
               ColorUtils.lightenColor s a = s /\
               ColorUtils.darkenColor s a = s).
Proof.
  intros H Ha. destruct (hexToRgb_inv color r g b H) as (Hr & Hg & Hb & _).
  unfold ColorUtils.lightenColor, ColorUtils.darkenColor. rewrite H.
  split; [|split].
  - apply rgb_hex_roundtrip_aux; lia.
  - apply rgb_hex_roundtrip_aux; lia.
  - intros s a Hs. rewrite Hs. split; reflexivity.
Qed.

Lemma lighten_darken_saturate_witness :
  ColorUtils.hexToRgb (ColorUtils.lightenColor "#F8B500" 20)
  = Some (255, 201, 20)%Z.
Proof.
  destruct (lighten_darken_saturate "#F8B500" 20 248 181 0) as (H & _);
    [reflexivity|lia|exact H].
Defined.

(** ** [EventEmitter] *)

Section emitter_facts.
Context {Args : Type}.
Implicit Types (e : EventEmitter.E Args) (l : list EventEmitter.Listener).

Lemma forEach_compose n m k event (args : Args) e :
  EventEmitter.forEach (n + m) k event args e
  = EventEmitter.forEach m (k + n) event args
      (EventEmitter.forEach n k event args e).
Proof.
  revert k e. induction n as [|n IH]; intros k e; simpl.
  - rewrite Nat.add_0_r. reflexivity.
  - rewrite IH. f_equal. lia.
Qed.

Lemma forEach_plain n k event (args : Args) e l :
  EventEmitter.events e !! event = Some l ->
  Forall EventEmitter.is_plain l ->
  EventEmitter.forEach n k event args e
  = EventEmitter.mk (EventEmitter.events e) (EventEmitter.onceCount e)
      (EventEmitter.calls e ++ EventEmitter.invocations args (take n (drop k l))).
Proof.
  intros Hl Hp. revert k e Hl.
  induction n as [|n IH]; intros k e Hl.
  - simpl. unfold EventEmitter.invocations. simpl. rewrite app_nil_r.
    destruct e; reflexivity.
  - simpl. rewrite Hl.
    destruct (l !! k) as [cb|] eqn:Hk.
    + assert (Hcb : EventEmitter.is_plain cb).
      { rewrite Forall_forall in Hp. apply Hp.
        apply list_elem_of_lookup. eauto. }
      destruct Hcb as [f ->].
      rewrite (IH (S k)) by exact Hl. simpl.
      rewrite (drop_S l (EventEmitter.Plain f) k Hk). simpl.
      rewrite <- app_assoc. reflexivity.
    + rewrite (IH (S k) e Hl).
      apply lookup_ge_None in Hk.
      rewrite !drop_ge by lia. rewrite !take_nil. reflexivity.
Qed.

Lemma indexOf_Some cb l i :
  EventEmitter.indexOf cb l = Some i ->
  l !! i = Some cb /\ (forall j, j < i -> l !! j <> Some cb).
Proof.
  revert i. induction l as [|x l IH]; intros i H; simpl in H; [discriminate|].
  destruct (decide (x = cb)) as [->|Hne].
  - injection H as <-. split; [reflexivity|]. intros j Hj. lia.
  - destruct (EventEmitter.indexOf cb l) as [k|] eqn:Hk; [|discriminate].
    injection H as <-. destruct (IH k eq_refl) as (Hk1 & Hk2).
    split; [exact Hk1|]. intros [|j] Hj; simpl.
    + congruence.
    + apply Hk2. lia.
Qed.

Lemma indexOf_None cb l : EventEmitter.indexOf cb l = None <-> cb ∉ l.
Proof.
  induction l as [|x l IH]; simpl.
  - split; [intros _ H; inversion H|reflexivity].
  - destruct (decide (x = cb)) as [->|Hne].
    + split; [discriminate|]. intros H. exfalso. apply H. left.
    + rewrite not_elem_of_cons, <- IH.
      destruct (EventEmitter.indexOf cb l); simpl.
      * split; [discriminate|]. intros [_ H]. discriminate.
      * split; [intros _; split; [congruence|reflexivity]|reflexivity].
Qed.

Lemma indexOf_middle cb pre rest :
  cb ∉ pre -> EventEmitter.indexOf cb (pre ++ cb :: rest) = Some (length pre).
Proof.
  induction pre as [|x pre IH]; intros Hn; simpl.
  - rewrite decide_True by reflexivity. reflexivity.
  - apply not_elem_of_cons in Hn as [Hne Hn].
    rewrite decide_False by congruence. rewrite (IH Hn). reflexivity.
Qed.

(** X20. When every listener of an event was registered with [on],
    [emit] invokes each of them once with the arguments given, in the
    order of registration, and changes nothing else; a listener added
    with [on] is invoked last.  An event that has no listeners and whose
    name is not inherited is emitted without any effect. *)
Theorem emit_invokes_listeners_in_order event (args : Args) e l :
  EventEmitter.events e !! event = Some l ->
  Forall EventEmitter.is_plain l ->
  EventEmitter.emit event args e
  = Some (EventEmitter.mk (EventEmitter.events e) (EventEmitter.onceCount e)
            (EventEmitter.calls e ++ EventEmitter.invocations args l)) /\
  (forall f, exists e1,
      EventEmitter.on event (EventEmitter.Plain f) e = Some e1 /\
      exists e2,
        EventEmitter.emit event args e1 = Some e2 /\
        EventEmitter.calls e2
        = EventEmitter.calls e ++ EventEmitter.invocations args l ++ [(f, args)]) /\
  (forall event', EventEmitter.events e !! event' = None ->
                  EventEmitter.inherited event' = false ->
                  EventEmitter.emit event' args e = Some e).
Proof.
  intros Hl Hp. split; [|split].
  - unfold EventEmitter.emit. rewrite Hl.
    rewrite (forEach_plain _ _ _ _ _ l Hl Hp).
    rewrite drop_0, firstn_all. reflexivity.
  - intros f. unfold EventEmitter.on. rewrite Hl. eexists. split; [reflexivity|].
    unfold EventEmitter.emit. simpl. rewrite lookup_insert_eq.
    eexists. split; [reflexivity|].
    rewrite (forEach_plain _ _ _ _ _ (l ++ [EventEmitter.Plain f])).
    + simpl. rewrite drop_0, firstn_all. unfold EventEmitter.invocations.
      rewrite map_app. reflexivity.
    + simpl. apply lookup_insert_eq.
    + apply Forall_app. split; [exact Hp|].
      apply Forall_singleton. eexists. reflexivity.
  - intros event' Hn Hi. unfold EventEmitter.emit. rewrite Hn, Hi. reflexivity.
Qed.

(** X21. When an event has one listener registered with [once] among
    listeners registered with [on], [emit] invokes the listeners before
    it and the one-time callback, removes the one-time listener from the
    array it is iterating over, and thereby skips the listener that
    stood right after it: of the listeners behind the one-time listener,
    all but the first are invoked.  The one-time listener is gone
    afterwards and the others remain. *)
Theorem emit_once_skips_next_listener event (args : Args) e pre k f rest :
  EventEmitter.events e !! event
  = Some (pre ++ EventEmitter.OnceWrapper k f :: rest) ->
  Forall EventEmitter.is_plain pre -> Forall EventEmitter.is_plain rest ->
  EventEmitter.emit event args e
  = Some (EventEmitter.mk
            (<[event := pre ++ rest]> (EventEmitter.events e))
            (EventEmitter.onceCount e)
            (EventEmitter.calls e ++ EventEmitter.invocations args pre ++ [(f, args)]
             ++ EventEmitter.invocations args (drop 1 rest))).
Proof.
  intros Hl Hpre Hrest.
  set (w := EventEmitter.OnceWrapper k f) in *.
  assert (Hw : w ∉ pre).
  { intros Hin. rewrite Forall_forall in Hpre.
    destruct (Hpre w Hin) as [g Hg]. discriminate. }
  unfold EventEmitter.emit. rewrite Hl.
  rewrite length_app. simpl.
  rewrite forEach_compose. simpl.
  (* the listeners in front: the array is not modified *)
  assert (Hfront : forall n, n <= length pre ->
            EventEmitter.forEach n 0 event args e
            = EventEmitter.mk (EventEmitter.events e) (EventEmitter.onceCount e)
                (EventEmitter.calls e ++ EventEmitter.invocations args (take n pre))).
  { induction n as [|n IH]; intros Hn.
    - simpl. unfold EventEmitter.invocations. simpl. rewrite app_nil_r.
      destruct e; reflexivity.
    - replace (S n) with (n + 1) by lia. rewrite forEach_compose.
      rewrite IH by lia. simpl. rewrite Hl.
      destruct (lookup_lt_is_Some_2 pre n ltac:(lia)) as [cb Hcb].
      rewrite lookup_app_l by lia. rewrite Hcb.
      assert (Hpl : EventEmitter.is_plain cb).
      { rewrite Forall_forall in Hpre. apply Hpre.
        apply list_elem_of_lookup. eauto. }
      destruct Hpl as [g ->]. simpl.
      replace (n + 1) with (S n) by lia.
      rewrite (take_S_r pre n _ Hcb). unfold EventEmitter.invocations.
      rewrite map_app, app_assoc. reflexivity. }
  rewrite (Hfront (length pre)) by lia. rewrite firstn_all.
  simpl. rewrite Hl.
  rewrite list_lookup_middle by reflexivity.
  (* the one-time listener: invoked, then spliced out *)
  unfold EventEmitter.invoke. fold w.
  unfold EventEmitter.off. simpl. rewrite Hl.
  rewrite (indexOf_middle w pre rest Hw). simpl.
  rewrite delete_middle.
  (* the listeners behind: read from the shortened array *)
  rewrite (forEach_plain _ _ _ _ _ (pre ++ rest)).
  - simpl. f_equal. rewrite <- !app_assoc. do 2 f_equal.
    simpl. f_equal.
    replace (S (length pre)) with (length pre + 1) by lia.
    rewrite drop_app_add. rewrite take_ge; [reflexivity|].
    rewrite length_drop. lia.
  - simpl. apply lookup_insert_eq.
  - apply Forall_app. split; assumption.
Qed.

(** X22. [off] removes the first registration of a listener and only
    that one; for a listener that is not registered it changes nothing;
    and [on] followed by [off] of a listener that was not registered
    before leaves the listeners of every event as they were. *)
Theorem off_removes_first_registration event cb e l :
  EventEmitter.events e !! event = Some l ->
  (cb ∉ l -> EventEmitter.off event cb e = Some e) /\
  (cb ∈ l ->
   exists i, l !! i = Some cb /\ (forall j, j < i -> l !! j <> Some cb) /\
     EventEmitter.off event cb e
     = Some (EventEmitter.mk (<[event := delete i l]> (EventEmitter.events e))
               (EventEmitter.onceCount e) (EventEmitter.calls e))) /\
  (cb ∉ l ->
   exists e1 e2,
     EventEmitter.on event cb e = Some e1 /\
     EventEmitter.off event cb e1 = Some e2 /\
     EventEmitter.events e2 = EventEmitter.events e).
Proof.
  intros Hl. split; [|split].
  - intros Hn. unfold EventEmitter.off. rewrite Hl.
    rewrite (proj2 (indexOf_None cb l) Hn). reflexivity.
  - intros Hin. unfold EventEmitter.off. rewrite Hl.
    destruct (EventEmitter.indexOf cb l) as [i|] eqn:Hi.
    + destruct (indexOf_Some _ _ _ Hi) as (H1 & H2). exists i. auto.
    + apply indexOf_None in Hi. contradiction.
  - intros Hn. unfold EventEmitter.on. rewrite Hl.
    eexists. eexists. split; [reflexivity|].
    unfold EventEmitter.off. simpl. rewrite lookup_insert_eq.
    replace (l ++ [cb]) with (l ++ cb :: []) by reflexivity.
    rewrite (indexOf_middle cb l [] Hn). split; [reflexivity|]. simpl.
    rewrite delete_middle, app_nil_r, insert_insert_eq.
    apply insert_id, Hl.
Qed.

(** X23. [removeAllListeners] with a non-empty event name removes the
    listeners of that event and of no other; with no argument, and also
    with the empty string as event name, it removes the listeners of all
    events.  On a name inherited from [Object.prototype] that has no
    listeners, [on], [off] and [emit] raise an error, while
    [removeAllListeners] changes nothing. *)
Theorem removeAllListeners_scope e :
  (forall event, event <> EmptyString ->
     EventEmitter.events
       (EventEmitter.removeAllListeners (Some event) e) !! event = None /\
     forall event', event' <> event ->
       EventEmitter.events
         (EventEmitter.removeAllListeners (Some event) e) !! event'
       = EventEmitter.events e !! event') /\
  EventEmitter.events (EventEmitter.removeAllListeners None e) = ∅ /\
  EventEmitter.events
    (EventEmitter.removeAllListeners (Some EmptyString) e) = ∅ /\
  (forall event cb (args : Args),
     EventEmitter.inherited event = true ->
     EventEmitter.events e !! event = None ->
     EventEmitter.on event cb e = None /\
     EventEmitter.off event cb e = None /\
     EventEmitter.emit event args e = None /\
     EventEmitter.events
       (EventEmitter.removeAllListeners (Some event) e)
     = EventEmitter.events e).
Proof.
  split; [|split; [reflexivity|split; [reflexivity|]]].
  - intros event Hne. destruct event as [|c s]; [contradiction|]. simpl.
    split; [apply lookup_delete_eq|].
    intros event' Hne'. apply lookup_delete_ne. congruence.
  - intros event cb args Hi Hn.
    unfold EventEmitter.on, EventEmitter.off, EventEmitter.emit.
    rewrite Hn, Hi. repeat split.
    destruct event as [|c s]; [discriminate|]. simpl.
    apply delete_id, Hn.
Qed.

End emitter_facts.

Lemma emit_invokes_listeners_in_order_witness :
  exists e1 e2,
    EventEmitter.on "match" (EventEmitter.Plain 1) (EventEmitter.new (Args:=Z))
    = Some e1 /\
    EventEmitter.emit "match" 42%Z e1 = Some e2 /\
    EventEmitter.calls e2 = [(1, 42%Z)].
Proof.
  eexists. eexists. split; [reflexivity|].
  destruct (emit_invokes_listeners_in_order "match" 42%Z
              (EventEmitter.mk {["match"%string := [EventEmitter.Plain 1]]} 0 [])
              [EventEmitter.Plain 1]) as (H & _).
  - reflexivity.
  - apply Forall_singleton. exists 1. reflexivity.
  - split; [exact H|reflexivity].
Defined.

Lemma emit_once_skips_next_listener_witness :
  EventEmitter.calls
    (default EventEmitter.new
       (EventEmitter.emit "match" 42%Z
          (EventEmitter.mk
             {["match"%string :=
                 [EventEmitter.OnceWrapper 0 1; EventEmitter.Plain 2;
                  EventEmitter.Plain 3]]} 1 [])))
  = [(1, 42%Z); (3, 42%Z)].
Proof.
  rewrite (emit_once_skips_next_listener "match" 42%Z _ [] 0 1
             [EventEmitter.Plain 2; EventEmitter.Plain 3]).
  - reflexivity.
  - reflexivity.
  - constructor.
  - repeat constructor; eexists; reflexivity.
Defined.

Lemma off_removes_first_registration_witness :
  exists e1 e2,
    EventEmitter.on "flip" (EventEmitter.Plain 7)
      (EventEmitter.mk (Args:=Z) {["flip"%string := [EventEmitter.Plain 5]]} 0 [])
    = Some e1 /\
    EventEmitter.off "flip" (EventEmitter.Plain 7) e1 = Some e2 /\
    EventEmitter.events e2 = {["flip"%string := [EventEmitter.Plain 5]]}.
Proof.
  destruct (off_removes_first_registration "flip" (EventEmitter.Plain 7)
              (EventEmitter.mk (Args:=Z)
                 {["flip"%string := [EventEmitter.Plain 5]]} 0 [])
              [EventEmitter.Plain 5]) as (_ & _ & H); [reflexivity|].
  apply H. intros Hin. apply list_elem_of_singleton in Hin. discriminate.
Defined.

(** ** [StorageManager] *)

Lemma clearKeys_lookup keys (ls : gmap string string) k :
  StorageManager.clearKeys keys ls !! k
  = if String.prefix "memoryMatch_" k && bool_decide (k ∈ keys)
    then None else ls !! k.
Proof.
  unfold StorageManager.clearKeys. revert ls.
  induction keys as [|key keys IH]; intros ls; simpl.
  - rewrite andb_false_r. reflexivity.
  - rewrite IH.
    destruct (String.prefix "memoryMatch_" k) eqn:Hk; simpl.
    + destruct (bool_decide_reflect (k ∈ keys)) as [Hin|Hin].
      * rewrite bool_decide_eq_true_2 by (right; exact Hin). reflexivity.
      * destruct (decide (k = key)) as [->|Hne].
        -- rewrite bool_decide_eq_true_2 by left. rewrite Hk.
           apply lookup_delete_eq.
        -- rewrite bool_decide_eq_false_2
             by (intros H; apply elem_of_cons in H as [|]; tauto).
           destruct (String.prefix "memoryMatch_" key); [|reflexivity].
           apply lookup_delete_ne. congruence.
    + destruct (String.prefix "memoryMatch_" key) eqn:Hkey; [|reflexivity].
      apply lookup_delete_ne. intros ->. congruence.
Qed.

(** X24. [clearAllGameData] removes every entry whose key starts with
    [memoryMatch_] and leaves every other entry as it is.  The best
    scores that [saveBestScore] persists (keys [bestScore_...]) and the
    settings (keys [memoryMatchSettings], [memoryMatchAudioSettings]) do
    not start with that prefix, so neither [clearAllGameData] nor
    [removeGameData] ever touches them. *)
Theorem clearAllGameData_scope (ls : gmap string string) :
  (forall k, String.prefix "memoryMatch_" k = true ->
             StorageManager.clearAllGameData ls !! k = None) /\
  (forall k, String.prefix "memoryMatch_" k = false ->
             StorageManager.clearAllGameData ls !! k = ls !! k) /\
  (forall d, currentBest d (StorageManager.clearAllGameData ls)
             = currentBest d ls) /\
  (forall d key, currentBest d (StorageManager.removeGameData key ls)
                 = currentBest d ls) /\
  StorageManager.clearAllGameData ls !! "memoryMatchSettings"%string
  = ls !! "memoryMatchSettings"%string /\
  StorageManager.clearAllGameData ls !! "memoryMatchAudioSettings"%string
  = ls !! "memoryMatchAudioSettings"%string.
Proof.
  assert (Hkeep : forall k, String.prefix "memoryMatch_" k = false ->
                    StorageManager.clearAllGameData ls !! k = ls !! k).
  { intros k Hk. unfold StorageManager.clearAllGameData.
    rewrite clearKeys_lookup, Hk. reflexivity. }
  split; [|split; [exact Hkeep|split; [|split; [|split]]]].
  - intros k Hk. unfold StorageManager.clearAllGameData.
    rewrite clearKeys_lookup, Hk. simpl.
    destruct (bool_decide_reflect (k ∈ (map_to_list ls).*1)) as [|Hn];
      [reflexivity|].
    destruct (ls !! k) as [v|] eqn:Hv; [|reflexivity].
    exfalso. apply Hn. apply list_elem_of_fmap. exists (k, v).
    split; [reflexivity|]. apply elem_of_map_to_list. exact Hv.
  - intros d. unfold currentBest. rewrite Hkeep; [reflexivity|].
    destruct d; reflexivity.
  - intros d key. unfold currentBest, StorageManager.removeGameData.
    rewrite lookup_delete_ne; [reflexivity|]. destruct d; discriminate.
  - apply Hkeep. reflexivity.
  - apply Hkeep. reflexivity.
Qed.

(** ** [sanitizeString] *)

(** The classes of characters that [escape] distinguishes. *)
Lemma escape_cases c :
  (Sanitize.escape c = String c EmptyString /\
   Ascii.nat_of_ascii c <> 60 /\ Ascii.nat_of_ascii c <> 62 /\
   Ascii.nat_of_ascii c <> 34 /\ Ascii.nat_of_ascii c <> 39 /\
   Ascii.nat_of_ascii c <> 38) \/
  (Ascii.nat_of_ascii c = 60 /\ Sanitize.escape c = "&lt;"%string) \/
  (Ascii.nat_of_ascii c = 62 /\ Sanitize.escape c = "&gt;"%string) \/
  (Ascii.nat_of_ascii c = 34 /\ Sanitize.escape c = "&quot;"%string) \/
  (Ascii.nat_of_ascii c = 39 /\ Sanitize.escape c = "&#39;"%string) \/
  (Ascii.nat_of_ascii c = 38 /\ Sanitize.escape c = "&amp;"%string).
Proof.
  destruct c as [[] [] [] [] [] [] [] []]; cbv;
    first [ left; repeat split; discriminate
          | right; left; split; reflexivity
          | right; right; left; split; reflexivity
          | right; right; right; left; split; reflexivity
          | right; right; right; right; left; split; reflexivity
          | right; right; right; right; right; split; reflexivity ].
Qed.

Lemma chars_append s t : Sanitize.chars (s +:+ t) = Sanitize.chars s ++ Sanitize.chars t.
Proof. induction s as [|c s IH]; simpl; [reflexivity|]. rewrite IH. reflexivity. Qed.

Lemma ascii_code_inj c d : Ascii.nat_of_ascii c = Ascii.nat_of_ascii d -> c = d.
Proof.
  intros H. rewrite <- (Ascii.ascii_nat_embedding c), H.
  apply Ascii.ascii_nat_embedding.
Qed.

Lemma escape_head_inj c1 c2 t1 t2 :
  (Sanitize.escape c1 +:+ t1 = Sanitize.escape c2 +:+ t2)%string ->
  c1 = c2 /\ t1 = t2.
Proof.
  intros H.
  destruct (escape_cases c1)
    as [(E1 & A1 & B1 & C1 & D1 & F1)|[(N1 & E1)|[(N1 & E1)|[(N1 & E1)|
        [(N1 & E1)|(N1 & E1)]]]]];
  destruct (escape_cases c2)
    as [(E2 & A2 & B2 & C2 & D2 & F2)|[(N2 & E2)|[(N2 & E2)|[(N2 & E2)|
        [(N2 & E2)|(N2 & E2)]]]]];
  rewrite E1, E2 in H; simpl in H;
  first
    [ discriminate H
    | injection H; intros; subst;
      first
        [ exfalso; first [apply F1; reflexivity|apply F2; reflexivity]
        | split;
          [ first [reflexivity|apply ascii_code_inj; congruence]
          | first [reflexivity|assumption|congruence] ] ] ].
Qed.

(** X25. [sanitizeString] leaves no less-than sign, greater-than sign,
    double quote or apostrophe in its result; it returns a string
    without any of the five special characters unchanged; and it loses
    no information: two different strings never have the same result. *)
Theorem sanitizeString_safe_and_injective :
  (forall str c,
      c ∈ Sanitize.chars (Sanitize.sanitizeString str) ->
      Ascii.nat_of_ascii c <> 60 /\ Ascii.nat_of_ascii c <> 62 /\
      Ascii.nat_of_ascii c <> 34 /\ Ascii.nat_of_ascii c <> 39) /\
  (forall str,
      (forall c, c ∈ Sanitize.chars str ->
                 Sanitize.escape c = String c EmptyString) ->
      Sanitize.sanitizeString str = str) /\
  (forall s1 s2,
      Sanitize.sanitizeString s1 = Sanitize.sanitizeString s2 -> s1 = s2).
Proof.
  split; [|split].
  - induction str as [|d str IH]; intros c Hc; simpl in Hc; [inversion Hc|].
    rewrite chars_append in Hc. apply elem_of_app in Hc as [Hc|Hc];
      [|exact (IH c Hc)].
    destruct (escape_cases d)
      as [(E & A & B & C & D & F)|[(N & E)|[(N & E)|[(N & E)|
          [(N & E)|(N & E)]]]]]; rewrite E in Hc; simpl in Hc;
      repeat (apply elem_of_cons in Hc as [->|Hc];
              [first [repeat split; assumption
                     |repeat split; discriminate]|]);
      inversion Hc.
  - induction str as [|d str IH]; intros H; simpl; [reflexivity|].
    rewrite (H d) by left. simpl. f_equal. apply IH.
    intros c Hc. apply H. right. exact Hc.
  - induction s1 as [|c1 s1 IH]; intros [|c2 s2] H; simpl in H.
    + reflexivity.
    + exfalso. destruct (escape_cases c2)
        as [(E & _)|[(_ & E)|[(_ & E)|[(_ & E)|[(_ & E)|(_ & E)]]]]];
        rewrite E in H; discriminate H.
    + exfalso. destruct (escape_cases c1)
        as [(E & _)|[(_ & E)|[(_ & E)|[(_ & E)|[(_ & E)|(_ & E)]]]]];
        rewrite E in H; discriminate H.
    + destruct (escape_head_inj _ _ _ _ H) as [-> Ht].
      f_equal. apply IH, Ht.
Qed.

(** ** [ParticleSystem] *)

Section particle_facts.
Variable rand : nat -> Q.

(** What [createParticle] does to the list of particles. *)
Lemma createParticle_push x y options s :
  exists p,
    ParticleSystem.particles (ParticleSystem.createParticle rand x y options s)
    = (if bool_decide (ParticleSystem.maxParticles s
                       < length (ParticleSystem.particles s ++ [p]))
       then drop 1 (ParticleSystem.particles s ++ [p])
       else ParticleSystem.particles s ++ [p]) /\
    ParticleSystem.maxParticles
      (ParticleSystem.createParticle rand x y options s)
    = ParticleSystem.maxParticles s.
Proof. eexists. split; reflexivity. Qed.

Lemma bounded_createParticle x y options s :
  ParticleSystem.bounded s ->
  ParticleSystem.bounded (ParticleSystem.createParticle rand x y options s).
Proof.
  unfold ParticleSystem.bounded. intros Hb.
  destruct (createParticle_push x y options s) as (p & -> & ->).
  destruct (bool_decide_reflect
              (ParticleSystem.maxParticles s
               < length (ParticleSystem.particles s ++ [p]))) as [H|H].
  - rewrite length_drop, length_app. simpl. lia.
  - lia.
Qed.

Lemma bounded_iter (f : ParticleSystem.T -> ParticleSystem.T) n s :
  (forall s, ParticleSystem.bounded s -> ParticleSystem.bounded (f s)) ->
  ParticleSystem.bounded s -> ParticleSystem.bounded (Nat.iter n f s).
Proof. intros Hf Hs. induction n as [|n IH]; simpl; [exact Hs|apply Hf, IH]. Qed.

Lemma bounded_step op s :
  ParticleSystem.bounded s ->
  ParticleSystem.bounded (ParticleSystem.step rand op s).
Proof.
  intros Hb. destruct op as [x y o|x y n o|x y n| |]; simpl.
  - apply bounded_createParticle, Hb.
  - apply bounded_iter; [|exact Hb]. intros s' Hs'.
    unfold ParticleSystem.burstOne.
    apply bounded_createParticle. destruct (ParticleSystem.falsyS _); exact Hs'.
  - apply bounded_iter; [|exact Hb]. intros s' Hs'.
    unfold ParticleSystem.trailOne. apply bounded_createParticle. exact Hs'.
  - unfold ParticleSystem.bounded, ParticleSystem.update in *. simpl.
    etransitivity; [apply length_filter|]. rewrite length_map. exact Hb.
  - unfold ParticleSystem.bounded. simpl. lia.
Qed.

Lemma maxParticles_iter (f : ParticleSystem.T -> ParticleSystem.T) n s :
  (forall s, ParticleSystem.maxParticles (f s) = ParticleSystem.maxParticles s) ->
  ParticleSystem.maxParticles (Nat.iter n f s) = ParticleSystem.maxParticles s.
Proof.
  intros Hf. induction n as [|n IH]; simpl; [reflexivity|].
  rewrite Hf. exact IH.
Qed.

Lemma maxParticles_step op s :
  ParticleSystem.maxParticles (ParticleSystem.step rand op s)
  = ParticleSystem.maxParticles s.
Proof.
  destruct op as [x y o|x y n o|x y n| |]; simpl; try reflexivity.
  - apply maxParticles_iter. intros s'.
    unfold ParticleSystem.burstOne. simpl.
    destruct (ParticleSystem.falsyS _); reflexivity.
  - apply maxParticles_iter. intros s'. reflexivity.
Qed.

(** X26. Whatever particles, bursts and trails are created and however
    often the system is updated or cleared, it never holds more than 100
    particles.  [createParticle] appends the new particle and, when that
    exceeds the limit, drops the oldest one; [update] never adds a
    particle. *)
Theorem particle_count_is_bounded ops :
  let s := ParticleSystem.run rand ops ParticleSystem.new in
  ParticleSystem.getParticleCount s <= 100 /\
  ParticleSystem.maxParticles s = 100 /\
  (forall x y options,
      exists p,
        ParticleSystem.particles
          (ParticleSystem.createParticle rand x y options s)
        = if bool_decide (ParticleSystem.getParticleCount s = 100)
          then drop 1 (ParticleSystem.particles s) ++ [p]
          else ParticleSystem.particles s ++ [p]) /\
  ParticleSystem.getParticleCount (ParticleSystem.update s)
  <= ParticleSystem.getParticleCount s.
Proof.
  intros s.
  assert (H : ParticleSystem.bounded s /\ ParticleSystem.maxParticles s = 100).
  { subst s. unfold ParticleSystem.run.
    assert (G : forall s0, ParticleSystem.bounded s0 ->
                  ParticleSystem.maxParticles s0 = 100 ->
                  ParticleSystem.bounded
                    (foldl (λ s op, ParticleSystem.step rand op s) s0 ops) /\
                  ParticleSystem.maxParticles
                    (foldl (λ s op, ParticleSystem.step rand op s) s0 ops)
                  = 100).
    { induction ops as [|op ops IH]; intros s0 Hb Hm; simpl; [auto|].
      apply IH; [apply bounded_step, Hb|rewrite maxParticles_step; exact Hm]. }
    apply G; [unfold ParticleSystem.bounded; simpl; lia|reflexivity]. }
  destruct H as (Hb & Hm). unfold ParticleSystem.bounded in Hb.
  unfold ParticleSystem.getParticleCount.
  split; [lia|]. split; [exact Hm|]. split.
  - intros x y options.
    destruct (createParticle_push x y options s) as (p & Hp & _).
    exists p. rewrite Hp, Hm, length_app. simpl.
    destruct (bool_decide_reflect (length (ParticleSystem.particles s) = 100))
      as [E|E].
    + rewrite bool_decide_eq_true_2 by lia.
      destruct (ParticleSystem.particles s) as [|q l]; [discriminate|].
      reflexivity.
    + rewrite bool_decide_eq_false_2 by lia. reflexivity.
  - unfold ParticleSystem.update. simpl.
    etransitivity; [apply length_filter|]. rewrite length_map. lia.
Qed.

End particle_facts.

(** ** [PerformanceMonitor] *)

Lemma sum_foldl_add acc (l : list Z) :
  foldl Z.add acc l = (acc + foldl Z.add 0 l)%Z.
Proof.
  revert acc. induction l as [|x l IH]; intros acc; simpl; [lia|].
  rewrite (IH (acc + x)%Z), (IH (0 + x)%Z). lia.
Qed.

Lemma sum_bounds lo hi (l : list Z) :
  (forall f, f ∈ l -> (lo <= f <= hi)%Z) ->
  (lo * Z.of_nat (length l) <= PerformanceMonitor.sum l
   <= hi * Z.of_nat (length l))%Z.
Proof.
  unfold PerformanceMonitor.sum.
  induction l as [|x l IH]; intros H; simpl length; [simpl; lia|].
  simpl foldl. rewrite sum_foldl_add.
  pose proof (H x ltac:(left)).
  assert (forall f, f ∈ l -> (lo <= f <= hi)%Z)
    by (intros f Hf; apply H; right; exact Hf).
  specialize (IH ltac:(assumption)). lia.
Qed.

Lemma round_quotient_bounds lo hi s n :
  (0 < n)%Z -> (lo * n <= s <= hi * n)%Z ->
  (lo <= PerformanceMonitor.round (inject_Z s / inject_Z n) <= hi)%Z.
Proof.
  intros Hn Hs. unfold PerformanceMonitor.round.
  assert (Hq : (0 < inject_Z n)%Q).
  { change (inject_Z 0 < inject_Z n)%Q. rewrite <- Zlt_Qlt. exact Hn. }
  assert (H1 : (inject_Z lo <= inject_Z s / inject_Z n)%Q).
  { apply Qle_shift_div_l; [exact Hq|].
    rewrite <- inject_Z_mult, <- Zle_Qle. lia. }
  assert (H2 : (inject_Z s / inject_Z n <= inject_Z hi)%Q).
  { apply Qle_shift_div_r; [exact Hq|].
    rewrite <- inject_Z_mult, <- Zle_Qle. lia. }
  split.
  - rewrite <- (Qfloor_Z lo). apply Qfloor_resp_le. lra.
  - apply Z.lt_succ_r. rewrite Zlt_Qlt.
    eapply Qle_lt_trans; [apply Qfloor_le|].
    unfold Z.succ. rewrite inject_Z_plus. change (inject_Z 1) with 1%Q. lra.
Qed.

(** X27. However a [PerformanceMonitor] is started, stopped and made
    to measure frames, its history never holds more than 60 values, the
    frame counter and the recorded rates are never negative, and
    [getAverageFPS] returns a value between the smallest and the largest
    rate of the history, or the current rate when the history is
    empty. *)
Theorem fps_history_is_bounded ops now0 :
  let m := PerformanceMonitor.run ops (PerformanceMonitor.new now0) in
  length (PerformanceMonitor.frameHistory m) <= 60 /\
  (0 <= PerformanceMonitor.frameCount m)%Z /\
  (forall f, f ∈ PerformanceMonitor.frameHistory m -> (0 <= f)%Z) /\
  (PerformanceMonitor.frameHistory m = [] ->
   PerformanceMonitor.getAverageFPS m = PerformanceMonitor.fps m) /\
  (forall lo hi,
      PerformanceMonitor.frameHistory m <> [] ->
      (forall f, f ∈ PerformanceMonitor.frameHistory m -> (lo <= f <= hi)%Z) ->
      (lo <= PerformanceMonitor.getAverageFPS m <= hi)%Z).
Proof.
  intros m.
  set (inv := fun m : PerformanceMonitor.T =>
         length (PerformanceMonitor.frameHistory m)
         <= PerformanceMonitor.maxHistorySize m /\
         PerformanceMonitor.maxHistorySize m = 60 /\
         (0 <= PerformanceMonitor.frameCount m)%Z /\
         (forall f, f ∈ PerformanceMonitor.frameHistory m -> (0 <= f)%Z)).
  assert (Hmeasure : forall now m0, inv m0 ->
            inv (PerformanceMonitor.measureFrame now m0)).
  { intros now m0 (H1 & H2 & H3 & H4). unfold PerformanceMonitor.measureFrame.
    destruct (negb _); [repeat split; assumption|].
    destruct (Qle_bool 1000 (now - PerformanceMonitor.lastTime m0)) eqn:Hd.
    - apply Qle_bool_iff in Hd.
      set (x := PerformanceMonitor.round _).
      assert (Hx : (0 <= x)%Z).
      { subst x. unfold PerformanceMonitor.round.
        change 0%Z with (Qfloor (inject_Z 0)). apply Qfloor_resp_le.
        assert (0 <= inject_Z ((PerformanceMonitor.frameCount m0 + 1) * 1000)
                     / (now - PerformanceMonitor.lastTime m0))%Q.
        { apply Qle_shift_div_l; [lra|].
          rewrite Qmult_0_l. change 0%Q with (inject_Z 0).
          rewrite <- Zle_Qle. lia. }
        change (inject_Z 0) with 0%Q. lra. }
      unfold inv. simpl. rewrite H2 in *.
      destruct (bool_decide_reflect
                  (60 < length (PerformanceMonitor.frameHistory m0 ++ [x])))
        as [Hl|Hl]; rewrite length_app in Hl; simpl in Hl.
      + split; [rewrite length_drop, length_app; simpl; lia|].
        split; [reflexivity|]. split; [lia|].
        intros f Hf. apply (subseteq_drop 1) in Hf.
        apply elem_of_app in Hf as [Hf|Hf]; [exact (H4 f Hf)|].
        apply list_elem_of_singleton in Hf. lia.
      + split; [rewrite length_app; simpl; lia|].
        split; [reflexivity|]. split; [lia|].
        intros f Hf.
        apply elem_of_app in Hf as [Hf|Hf]; [exact (H4 f Hf)|].
        apply list_elem_of_singleton in Hf. lia.
    - unfold inv. simpl. repeat split; try assumption. lia. }
  assert (Hstep : forall op m0, inv m0 -> inv (PerformanceMonitor.step op m0)).
  { intros [now| |now] m0 Hm0; simpl.
    - unfold PerformanceMonitor.startMonitoring. apply Hmeasure.
      exact Hm0.
    - exact Hm0.
    - apply Hmeasure, Hm0. }
  assert (Hinv : inv m).
  { subst m. unfold PerformanceMonitor.run.
    assert (G : forall m0, inv m0 ->
                  inv (foldl (λ m op, PerformanceMonitor.step op m) m0 ops)).
    { induction ops as [|op ops IH]; intros m0 Hm0; simpl; [exact Hm0|].
      apply IH, Hstep, Hm0. }
    apply G. unfold inv. simpl. repeat split; try lia.
    intros f Hf. inversion Hf. }
  destruct Hinv as (H1 & H2 & H3 & H4).
  split; [lia|]. split; [exact H3|]. split; [exact H4|]. split.
  - intros E. unfold PerformanceMonitor.getAverageFPS. rewrite E. reflexivity.
  - intros lo hi Hne Hb. unfold PerformanceMonitor.getAverageFPS.
    destruct (PerformanceMonitor.frameHistory m) as [|x l] eqn:E;
      [contradiction|].
    apply round_quotient_bounds; [simpl; lia|].
    apply sum_bounds. exact Hb.
Qed.
